(** * Context-and-retrieval subsystem of the conversational backend

    A shallow embedding of the algorithmic core of the application:
    - [app/utils/token_counter.py]   (token accounting and truncation),
    - [app/services/llm_service.py]  (sliding window, grounded prompts),
    - [app/utils/text_processor.py]  (chunking and relevance scoring),
    - [app/services/rag_service.py]  (top-k retrieval),
    - [app/services/conversation_service.py] (choice between grounded and
      plain generation).

    Python integers are [Z]; strings are [string] (8-bit characters, the
    character classes below are those of Python on the ASCII range);
    a chat message, which the code handles as a [Dict[str, str]] read with
    [.get], is a finite map from strings to strings; the float returned by
    the scorer is the exact rational it rounds (the quotient of two set
    sizes), so that [0.0], [0.25] and [1.0] are [0], [1/4] and [1]. *)

From Stdlib Require Import ZArith QArith Lia List String Ascii.
From Stdlib Require Import Sorting.Sorted Sorting.Permutation DecimalString.
From Stdlib Require DecimalZ DecimalPos.
From stdpp Require Import gmap strings list.

Local Open Scope string_scope.
Local Open Scope Z_scope.

(** ** Python sequence slicing *)

Module Py.

(** A slice bound [i] on a sequence of length [len]: negative bounds count
    from the end, and every bound is clamped into [0 .. len]. *)
Definition clamp (len i : Z) : Z :=
  if i <? 0 then Z.max (len + i) 0 else Z.min i len.

(** [l[start:stop]] with step 1; [None] is an omitted bound. *)
Definition slice {A : Type} (l : list A) (start stop : option Z) : list A :=
  let n := Z.of_nat (length l) in
  let lo := match start with None => 0 | Some i => clamp n i end in
  let hi := match stop with None => n | Some j => clamp n j end in
  take (Z.to_nat (hi - lo)) (drop (Z.to_nat lo) l).

(** [d.get(key, default)] on a dictionary. *)
Definition get (key default : string) (d : gmap string string) : string :=
  match d !! key with Some v => v | None => default end.

(** [sep.join(parts)]. *)
Fixpoint join (sep : string) (parts : list string) : string :=
  match parts with
  | [] => ""
  | [p] => p
  | p :: rest => p +:+ sep +:+ join sep rest
  end.

(** [enumerate(l)], counting from [i]. *)
Fixpoint enumerate_from {A : Type} (i : nat) (l : list A) : list (nat * A) :=
  match l with
  | [] => []
  | x :: rest => (i, x) :: enumerate_from (S i) rest
  end.

Definition enumerate {A : Type} (l : list A) : list (nat * A) :=
  enumerate_from 0 l.

End Py.

(** ** Messages *)

Abbreviation message := (gmap string string).

Definition mk_message (role content : string) : message :=
  <["role" := role]> (<["content" := content]> ∅).

(** [msg.get("role") == "system"] *)
Definition is_system (m : message) : bool :=
  bool_decide (m !! "role" = Some "system").

(** The two list comprehensions that partition a history. *)
Definition system_of (messages : list message) : list message :=
  List.filter is_system messages.

Definition others_of (messages : list message) : list message :=
  List.filter (fun m => negb (is_system m)) messages.

(** ** Token accountant ([TokenCounter]) *)

Section TokenCounter.

(** [self.encoding.encode]: the fixed tokenizer, a collaborator. *)
Variable encode : string -> list Z.

Definition count_tokens (text : string) : Z :=
  Z.of_nat (length (encode text)).

(** The loop body of [count_message_tokens]. *)
Definition add_message_tokens (total_tokens : Z) (m : message) : Z :=
  total_tokens + 4
  + count_tokens (Py.get "role" "" m)
  + count_tokens (Py.get "content" "" m).

Definition count_message_tokens (messages : list message) : Z :=
  fold_left add_message_tokens messages 0 + 2.

(** The loop over [reversed(other_messages)]: [result_messages] grows at
    the front, and the first message that does not fit ends the loop. *)
Fixpoint take_recent (remaining_tokens current_tokens : Z)
    (reversed_others result_messages : list message) : list message :=
  match reversed_others with
  | [] => result_messages
  | m :: rest =>
      let message_tokens := count_message_tokens [m] in
      if current_tokens + message_tokens <=? remaining_tokens
      then take_recent remaining_tokens (current_tokens + message_tokens)
             rest (m :: result_messages)
      else result_messages
  end.

Definition truncate_messages (messages : list message) (max_tokens : Z)
    (keep_system : bool) : list message :=
  match messages with
  | [] => messages
  | _ =>
      let system_messages := if keep_system then system_of messages else [] in
      let other_messages := if keep_system then others_of messages else messages in
      let system_tokens := count_message_tokens system_messages in
      let remaining_tokens := max_tokens - system_tokens in
      if remaining_tokens <=? 0
      then Py.slice system_messages None (Some 1)
      else system_messages
           ++ take_recent remaining_tokens 0 (rev other_messages) []
  end.

(** ** Context manager ([LLMService._manage_context]) *)

(** First phase: the sliding window. *)
Definition sliding_window (max_history : Z) (messages : list message)
    : list message :=
  if Z.of_nat (length messages) >? max_history then
    let system_messages := system_of messages in
    let other_messages := others_of messages in
    let windowed_messages :=
      Py.slice other_messages
        (Some (- (max_history - Z.of_nat (length system_messages)))) None in
    system_messages ++ windowed_messages
  else messages.

(** Second phase: the token budget. *)
Definition token_budget (max_tokens : Z) (messages : list message)
    : list message :=
  let total_tokens := count_message_tokens messages in
  if total_tokens >? max_tokens
  then truncate_messages messages max_tokens true
  else messages.

Definition _manage_context (max_history max_tokens : Z)
    (messages : list message) : list message :=
  token_budget max_tokens (sliding_window max_history messages).

End TokenCounter.


(** ** Text processing ([TextProcessor]) *)

(** Characters, on the ASCII range: [str.isspace] and the class [\s]. *)
Definition is_space (a : ascii) : bool :=
  let n := N_of_ascii a in
  ((n =? 32) || ((9 <=? n) && (n <=? 13)) || ((28 <=? n) && (n <=? 31)))%N.

(** The class [\w]: letters, digits and the underscore. *)
Definition is_word_char (a : ascii) : bool :=
  let n := N_of_ascii a in
  (((48 <=? n) && (n <=? 57)) || ((65 <=? n) && (n <=? 90))
   || (n =? 95) || ((97 <=? n) && (n <=? 122)))%N.

Definition lower_char (a : ascii) : ascii :=
  let n := N_of_ascii a in
  if ((65 <=? n) && (n <=? 90))%N then ascii_of_N (n + 32) else a.

(** [s.lower()] *)
Fixpoint lower (s : string) : string :=
  match s with
  | EmptyString => EmptyString
  | String a rest => String (lower_char a) (lower rest)
  end.

(** [re.sub(r'[^\w\s]', '', s)] *)
Fixpoint strip_punctuation (s : string) : string :=
  match s with
  | EmptyString => EmptyString
  | String a rest =>
      if is_word_char a || is_space a
      then String a (strip_punctuation rest)
      else strip_punctuation rest
  end.

(** [s.split()]: maximal runs of non-space characters, [word] being the
    run read so far. *)
Fixpoint split_from (word : string) (s : string) : list string :=
  match s with
  | EmptyString => if bool_decide (word = "") then [] else [word]
  | String a rest =>
      if is_space a
      then (if bool_decide (word = "") then split_from "" rest
            else word :: split_from "" rest)
      else split_from (word +:+ String a "") rest
  end.

Definition split (s : string) : list string := split_from "" s.

(** [str(i)] for an integer, as an f-string prints it. *)
Definition str_of_int (i : Z) : string :=
  DecimalString.NilZero.string_of_int (Z.to_int i).

Definition len {A : Type} (l : list A) : Z := Z.of_nat (length l).

(** *** Chunker *)

Record chunk := {
  chunk_id : string;
  text : string;
  start_word : Z;
  end_word : Z;
  word_count : Z
}.

(** One pass through the body of the [while] loop: the chunk appended for
    the window that starts at [start], and the next value of [start]. *)
Definition window_end (words : list string) (chunk_size start : Z) : Z :=
  Z.min (start + chunk_size) (len words).

Definition window_chunk (words : list string) (chunk_size : Z)
    (chunk_index start : Z) : chunk :=
  let end_ := window_end words chunk_size start in
  let chunk_words := Py.slice words (Some start) (Some end_) in
  {| chunk_id := "chunk_" +:+ str_of_int chunk_index;
     text := Py.join " " chunk_words;
     start_word := start;
     end_word := end_;
     word_count := len chunk_words |}.

Definition next_start (words : list string) (chunk_size overlap start : Z) : Z :=
  let end_ := window_end words chunk_size start in
  if end_ <? len words then end_ - overlap else end_.

(** The [while start < len(words)] loop. [fuel] bounds the number of
    passes; [None] means that the loop is still running when it is spent. *)
Fixpoint chunk_loop (fuel : nat) (words : list string) (chunk_size overlap : Z)
    (chunks : list chunk) (chunk_index start : Z) : option (list chunk) :=
  if start <? len words then
    match fuel with
    | O => None
    | S fuel' =>
        chunk_loop fuel' words chunk_size overlap
          (chunks ++ [window_chunk words chunk_size chunk_index start])
          (chunk_index + 1)
          (next_start words chunk_size overlap start)
    end
  else Some chunks.

Definition chunk_text (fuel : nat) (text : string) (chunk_size overlap : Z)
    : option (list chunk) :=
  let words := split text in
  if len words <=? chunk_size then
    Some [ {| chunk_id := "chunk_0";
              text := text;
              start_word := 0;
              end_word := len words;
              word_count := len words |} ]
  else chunk_loop fuel words chunk_size overlap [] 0 0.

(** *** Relevance scorer *)

Definition word_set (s : string) : gset string :=
  list_to_set (split (strip_punctuation (lower s))).

Definition calculate_relevance_score (query chunk_text : string) : Q :=
  let query_words := word_set query in
  let chunk_words := word_set chunk_text in
  if bool_decide (query_words = ∅) || bool_decide (chunk_words = ∅) then 0%Q
  else
    let intersection := query_words ∩ chunk_words in
    let union := query_words ∪ chunk_words in
    if bool_decide (union = ∅) then 0%Q
    else (Z.of_nat (size intersection) # Pos.of_nat (size union))%Q.

(** ** Exceptions *)

Inductive exn :=
| InvalidId (s : string)
| KeyError (key : string)
| NotConnected
| StoreError (reason : string)
| ApiError (reason : string).

(** What a call that may raise produces. *)
Inductive outcome (A : Type) :=
| Return (a : A)
| Raise (e : exn).
Arguments Return {A} a.
Arguments Raise {A} e.

(** Sequencing: an exception raised by the first call ends the block. *)
#[global] Instance outcome_bind : MBind outcome :=
  fun A B (k : A -> outcome B) (c : outcome A) =>
    match c with
    | Return a => k a
    | Raise e => Raise e
    end.

(** [try: body  except Exception as e: handler(e)] *)
Definition try_except {A : Type} (body : outcome A) (handler : exn -> A) : A :=
  match body with
  | Return a => a
  | Raise e => handler e
  end.

(** [d[key]] on a dictionary read back from the store: [None] is a missing
    key. *)
Definition subscript {A : Type} (key : string) (field : option A) : outcome A :=
  match field with
  | Some v => Return v
  | None => Raise (KeyError key)
  end.

(** ** Retriever ([RAGService.retrieve_relevant_chunks]) *)

(** A chunk and a document as the store returns them. *)
Record stored_chunk := {
  sc_text : option string;
  sc_chunk_id : option string
}.

Record document := {
  doc_filename : option string;
  doc_chunks : option (list stored_chunk)
}.

(** The document store, a collaborator: [MongoDB.get_database],
    [bson.ObjectId] and [find({"conversation_id": ..}).to_list]. *)
Record DocumentStore := {
  get_database : outcome unit;
  ObjectId : string -> outcome string;
  find_documents : string -> outcome (list document)
}.

Record scored_chunk := {
  s_text : string;
  s_score : Q;
  s_chunk_id : string;
  s_document : string
}.

(** [l.sort(key=key, reverse=True)]: the stable sort into non-increasing
    keys. An element goes in front of the first one whose key is not
    larger, so that it stays ahead of the equal keys that followed it. *)
Fixpoint insert_reverse {A : Type} (key : A -> Q) (x : A) (l : list A) : list A :=
  match l with
  | [] => [x]
  | y :: rest =>
      if Qle_bool (key y) (key x) then x :: y :: rest
      else y :: insert_reverse key x rest
  end.

Fixpoint sort_reverse {A : Type} (key : A -> Q) (l : list A) : list A :=
  match l with
  | [] => []
  | x :: rest => insert_reverse key x (sort_reverse key rest)
  end.

(** The body of the inner loop. *)
Definition score_chunk (query : string) (doc : document) (c : stored_chunk)
    : outcome scored_chunk :=
  t ← subscript "text" (sc_text c);
  let score := calculate_relevance_score query t in
  t' ← subscript "text" (sc_text c);
  i ← subscript "chunk_id" (sc_chunk_id c);
  f ← subscript "filename" (doc_filename doc);
  Return {| s_text := t'; s_score := score; s_chunk_id := i; s_document := f |}.

(** [for chunk in chunks: scored_chunks.append(..)] *)
Fixpoint score_chunks (query : string) (doc : document)
    (chunks : list stored_chunk) (scored_chunks : list scored_chunk)
    : outcome (list scored_chunk) :=
  match chunks with
  | [] => Return scored_chunks
  | c :: rest =>
      s ← score_chunk query doc c;
      score_chunks query doc rest (scored_chunks ++ [s])
  end.

(** [doc.get("chunks", [])] *)
Definition chunks_of (doc : document) : list stored_chunk :=
  match doc_chunks doc with Some cs => cs | None => [] end.

(** [for doc in documents: ..] *)
Fixpoint score_documents (query : string) (documents : list document)
    (scored_chunks : list scored_chunk) : outcome (list scored_chunk) :=
  match documents with
  | [] => Return scored_chunks
  | doc :: rest =>
      scored ← score_chunks query doc (chunks_of doc) scored_chunks;
      score_documents query rest scored
  end.

(** The body of the [try]. *)
Definition retrieve_body (store : DocumentStore) (conversation_id query : string)
    (top_k : Z) : outcome (list string) :=
  _ ← get_database store;
  oid ← ObjectId store conversation_id;
  documents ← find_documents store oid;
  match documents with
  | [] => Return []
  | _ =>
      scored_chunks ← score_documents query documents [];
      let sorted_chunks := sort_reverse s_score scored_chunks in
      let top_chunks := Py.slice sorted_chunks None (Some top_k) in
      Return (map s_text top_chunks)
  end.

Definition retrieve_relevant_chunks (store : DocumentStore)
    (conversation_id query : string) (top_k : Z) : list string :=
  try_except (retrieve_body store conversation_id query top_k) (fun _ => []).

(** ** LLM service ([LLMService]) *)

(** What the completion service answers: [choices[0].message.content],
    [usage.total_tokens] when there is a [usage], and
    [choices[0].finish_reason]. *)
Record completion := {
  cp_content : string;
  cp_usage : option Z;
  cp_finish_reason : string
}.

(** The service object: [client.chat.completions.create] (a collaborator,
    called with model, messages, temperature and max_tokens), the model
    name and the two limits read from the settings. *)
Record LLMService := {
  create : string -> list message -> Q -> Z -> outcome completion;
  model : string;
  max_tokens : Z;
  max_history : Z
}.

(** The dictionary that [generate_response] returns. *)
Record response := {
  r_content : string;
  r_tokens_used : Z;
  r_model : string;
  r_finish_reason : option string;
  r_error : option string;
  r_chunks_used : option Z
}.

Definition newline : string := String (ascii_of_nat 10) "".

Definition exn_text (e : exn) : string :=
  match e with
  | InvalidId s => "InvalidId: " +:+ s
  | KeyError k => "KeyError: " +:+ k
  | NotConnected => "Database not connected. Call connect_db() first."
  | StoreError r => r
  | ApiError r => r
  end.

Definition fallback_content : string :=
  "I apologize, but I'm having trouble generating a response right now. Please try again.".

Section Generation.

Variable encode : string -> list Z.
Variable self : LLMService.

Definition generate_response (messages : list message) (temperature : Q)
    (max_tokens_out : Z) : response :=
  try_except
    (let managed_messages :=
       _manage_context encode (max_history self) (max_tokens self) messages in
     c ← create self (model self) managed_messages temperature max_tokens_out;
     let tokens_used := match cp_usage c with Some t => t | None => 0 end in
     Return {| r_content := cp_content c;
               r_tokens_used := tokens_used;
               r_model := model self;
               r_finish_reason := Some (cp_finish_reason c);
               r_error := None;
               r_chunks_used := None |})
    (fun e =>
       {| r_content := fallback_content;
          r_tokens_used := 0;
          r_model := model self;
          r_finish_reason := None;
          r_error := Some (exn_text e);
          r_chunks_used := None |}).

(** [f"[Document Excerpt {i+1}]\n{chunk}"] *)
Definition excerpt (ic : nat * string) : string :=
  "[Document Excerpt " +:+ str_of_int (Z.of_nat (fst ic) + 1) +:+ "]"
  +:+ newline +:+ snd ic.

Definition rag_context (retrieved_chunks : list string) : string :=
  Py.join (newline +:+ newline) (map excerpt (Py.enumerate retrieved_chunks)).

Definition rag_system_message : message :=
  mk_message "system"
    ("You are a helpful assistant. Answer the user's question based on the provided document excerpts. "
     +:+ "If the answer cannot be found in the provided context, say so clearly. "
     +:+ "Always cite which document excerpt you're using when answering.").

Definition context_message (retrieved_chunks : list string) : message :=
  mk_message "system"
    ("Relevant document context:" +:+ newline +:+ newline
     +:+ rag_context retrieved_chunks).

Definition user_query (user_message : string) : message :=
  mk_message "user" user_message.

(** [response["chunks_used"] = n] *)
Definition set_chunks_used (r : response) (n : Z) : response :=
  {| r_content := r_content r;
     r_tokens_used := r_tokens_used r;
     r_model := r_model r;
     r_finish_reason := r_finish_reason r;
     r_error := r_error r;
     r_chunks_used := Some n |}.

Definition default_temperature : Q := 7 # 10.

Definition generate_with_rag_context (user_message : string)
    (conversation_history : list message) (retrieved_chunks : list string)
    (temperature : Q) : response :=
  let messages :=
    ([rag_system_message; context_message retrieved_chunks]
     ++ conversation_history ++ [user_query user_message])%list in
  let response := generate_response messages temperature 1024 in
  set_chunks_used response (len retrieved_chunks).

(** ** Conversation service ([_generate_and_store_response]) *)

Inductive ConversationMode := OPEN_CHAT | GROUNDED_RAG.

(** The [metadata] of the assistant message handed to [_create_message]. *)
Record metadata := {
  md_model : string;
  md_finish_reason : option string;
  md_chunks_used : Z
}.

(** The assistant message handed to [_create_message]. *)
Record assistant_message := {
  am_conversation_id : string;
  am_content : string;
  am_sequence_number : Z;
  am_tokens_used : Z;
  am_metadata : metadata
}.

Variable store : DocumentStore.

(** The retrieval step and the branch on its result: the response, and
    the chunks that were retrieved. *)
Definition generate_for_mode (conversation_id user_message_content : string)
    (conversation_history : list message) (mode : ConversationMode) : response :=
  match mode with
  | GROUNDED_RAG =>
      let chunks :=
        retrieve_relevant_chunks store conversation_id user_message_content 3 in
      match chunks with
      | _ :: _ =>
          generate_with_rag_context user_message_content conversation_history
            chunks default_temperature
      | [] =>
          let messages := (conversation_history ++ [user_query user_message_content])%list in
          generate_response messages default_temperature 1024
      end
  | OPEN_CHAT =>
      let messages := (conversation_history ++ [user_query user_message_content])%list in
      generate_response messages default_temperature 1024
  end.

(** The message that [_generate_and_store_response] builds and passes to
    [_create_message] for storage. *)
Definition _generate_and_store_response (conversation_id user_message_content : string)
    (conversation_history : list message) (sequence_number : Z)
    (mode : ConversationMode) : assistant_message :=
  let response :=
    generate_for_mode conversation_id user_message_content conversation_history mode in
  {| am_conversation_id := conversation_id;
     am_content := r_content response;
     am_sequence_number := sequence_number;
     am_tokens_used := r_tokens_used response;
     am_metadata :=
       {| md_model := r_model response;
          md_finish_reason := r_finish_reason response;
          md_chunks_used :=
            match r_chunks_used response with Some n => n | None => 0 end |} |}.

End Generation.

(** ** Conversation service: titles, pages and stored messages *)

(** The title of a new conversation in [create_conversation]:
    [first_message[:50] + "..." if len(first_message) > 50 else first_message]. *)
Definition conversation_title (first_message : string) : string :=
  if 50 <? Z.of_nat (String.length first_message)
  then substring 0 50 first_message +:+ "..."
  else first_message.

(** [skip = (page - 1) * limit] in [list_conversations]. *)
Definition page_skip (page limit : Z) : Z := (page - 1) * limit.

(** [pages = math.ceil(total / limit) if total > 0 else 1]. The quotient
    is taken exactly (the float quotient gives the same ceiling for a
    positive [limit] and [total] below 2^53); [None] is the
    [ZeroDivisionError] of [limit = 0], which [list_conversations]
    catches. *)
Definition page_count (total limit : Z) : option Z :=
  if total >? 0 then
    if limit =? 0 then None else Some (- ((- total) / limit))
  else Some 1.

Inductive MessageRole := USER | ASSISTANT | SYSTEM.

(** [role.value] *)
Definition role_value (role : MessageRole) : string :=
  match role with
  | USER => "user"
  | ASSISTANT => "assistant"
  | SYSTEM => "system"
  end.

(** The message dictionary that [_create_message] builds, inserts and
    returns; [sm_id] is the identifier that the insertion gave it, and
    [sm_metadata = None] is the empty dictionary of [metadata or {}]. *)
Record stored_message := {
  sm_id : option string;
  sm_conversation_id : string;
  sm_role : string;
  sm_content : string;
  sm_sequence_number : Z;
  sm_tokens_used : Z;
  sm_metadata : option metadata
}.

Section Storing.

Variable encode : string -> list Z.
Variable store : DocumentStore.

(** [db[Collections.MESSAGES].insert_one], a collaborator: the identifier
    of the inserted message. *)
Variable insert_one : stored_message -> outcome string.

Definition _create_message (conversation_id : string) (role : MessageRole)
    (content : string) (sequence_number tokens_used : Z)
    (md : option metadata) : outcome stored_message :=
  _ ← get_database store;
  let tokens_used :=
    if tokens_used =? 0 then count_tokens encode content else tokens_used in
  oid ← ObjectId store conversation_id;
  let message :=
    {| sm_id := None;
       sm_conversation_id := oid;
       sm_role := role_value role;
       sm_content := content;
       sm_sequence_number := sequence_number;
       sm_tokens_used := tokens_used;
       sm_metadata := md |} in
  inserted_id ← insert_one message;
  Return {| sm_id := Some inserted_id;
            sm_conversation_id := conversation_id;
            sm_role := sm_role message;
            sm_content := sm_content message;
            sm_sequence_number := sm_sequence_number message;
            sm_tokens_used := sm_tokens_used message;
            sm_metadata := sm_metadata message |}.

(** [_generate_and_store_response] up to its return: the response is
    generated and the assistant message is stored. *)
Definition generate_and_store (self : LLMService)
    (conversation_id user_message_content : string)
    (conversation_history : list message) (sequence_number : Z)
    (mode : ConversationMode) : outcome stored_message :=
  let am :=
    _generate_and_store_response encode self store conversation_id
      user_message_content conversation_history sequence_number mode in
  _create_message (am_conversation_id am) ASSISTANT (am_content am)
    (am_sequence_number am) (am_tokens_used am) (Some (am_metadata am)).

End Storing.

(** ** Specification-level notions *)

(** The cost of one message in the additive model: the constant 4, the
    tokens of the role and the tokens of the content. *)
Definition message_cost (encode : string -> list Z) (m : message) : Z :=
  4 + count_tokens encode (Py.get "role" "" m)
    + count_tokens encode (Py.get "content" "" m).

Definition sum_Z (l : list Z) : Z := foldr Z.add 0 l.

(** The number of word positions that two chunks share. *)
Definition range_overlap (c d : chunk) : Z :=
  Z.max 0 (Z.min (end_word c) (end_word d) - Z.max (start_word c) (start_word d)).

(** Word position [j] of the text lies in the range of chunk [c]. *)
Definition covers (c : chunk) (j : Z) : Prop :=
  start_word c <= j < end_word c.

(** The chunk describes the words of its range. *)
Definition describes (words : list string) (c : chunk) : Prop :=
  0 <= start_word c /\ start_word c < end_word c /\ end_word c <= len words
  /\ end_word c - start_word c = word_count c
  /\ text c = Py.join " " (take (Z.to_nat (word_count c))
                             (drop (Z.to_nat (start_word c)) words)).

(** The windows that the loop emits from [start] on: full windows of
    [chunk_size] words, each starting [overlap] words before the end of
    the one before, up to a final window that reaches the last word. *)
Inductive window_chain (words : list string) (chunk_size overlap : Z)
    : Z -> list chunk -> Prop :=
| chain_last start chunk_index :
    start < len words -> len words <= start + chunk_size ->
    window_chain words chunk_size overlap start
      [window_chunk words chunk_size chunk_index start]
| chain_more start chunk_index rest :
    start + chunk_size < len words ->
    window_chain words chunk_size overlap (start + chunk_size - overlap) rest ->
    window_chain words chunk_size overlap start
      (window_chunk words chunk_size chunk_index start :: rest).

(** The relevance score in the words of the specification: the unique
    words of a string, in order of first occurrence, and the quotient of
    the number of common words by the number of words in either list,
    0 when one of the lists is empty. *)
Definition unique_words (s : string) : list string :=
  remove_dups (split (strip_punctuation (lower s))).

Definition jaccard (a b : list string) : Q :=
  match a, b with
  | [], _ => 0%Q
  | _, [] => 0%Q
  | _, _ =>
      (Z.of_nat (length (list_intersection a b))
       # Pos.of_nat (length (list_union a b)))%Q
  end.

(** The chunk pool of a conversation, in encounter order: the chunks of
    its documents, document after document. *)
Definition pool (documents : list document) : list stored_chunk :=
  concat (map chunks_of documents).

(** Keys in non-increasing order. *)
Definition descending {A : Type} (key : A -> Q) (l : list A) : Prop :=
  StronglySorted (fun a b => (key b <= key a)%Q) l.

(** The elements of [l] whose key equals [v], in the order of [l]. *)
Definition with_key {A : Type} (key : A -> Q) (v : Q) (l : list A) : list A :=
  List.filter (fun a => Qeq_bool (key a) v) l.

(** A scored entry stands for a chunk of the pool. *)
Definition scores (query : string) (c : stored_chunk) (s : scored_chunk) : Prop :=
  sc_text c = Some (s_text s)
  /\ s_score s = calculate_relevance_score query (s_text s).

(** The excerpts of a grounded prompt, labelled from 1. *)
Definition labelled (retrieved_chunks : list string) : list string :=
  map excerpt (Py.enumerate retrieved_chunks).

(** A store for the examples: one conversation with two documents. *)
Definition demo_chunk (i t : string) : stored_chunk :=
  {| sc_text := Some t; sc_chunk_id := Some i |}.

Definition demo_documents : list document :=
  [ {| doc_filename := Some "terms.txt";
       doc_chunks := Some [demo_chunk "chunk_0" "apple pie";
                           demo_chunk "chunk_1" "refund policy now";
                           demo_chunk "chunk_2" "policy"] |};
    {| doc_filename := Some "faq.txt";
       doc_chunks := Some [demo_chunk "chunk_0" "refund";
                           demo_chunk "chunk_1" "Policy refund"] |} ].

Definition demo_store : DocumentStore :=
  {| get_database := Return tt;
     ObjectId := fun s =>
       if bool_decide (String.length s = 24%nat) then Return s
       else Raise (InvalidId s);
     find_documents := fun oid =>
       if bool_decide (oid = "65f0c0ffee65f0c0ffee65f0") then Return demo_documents
       else Return [] |}.

Definition demo_id : string := "65f0c0ffee65f0c0ffee65f0".

(** A completion service for the examples: it answers with the number of
    messages it was sent. *)
Definition demo_llm : LLMService :=
  {| create := fun _ messages _ _ =>
       Return {| cp_content := str_of_int (len messages);
                 cp_usage := Some 42;
                 cp_finish_reason := "stop" |};
     model := "llama-3.3-70b-versatile";
     max_tokens := 7000;
     max_history := 12 |}.

(** A conversation without documents. *)
Definition empty_id : string := "000000000000000000000000".

(** A store whose second document holds a chunk without text. *)
Definition broken_documents : list document :=
  [ {| doc_filename := Some "terms.txt";
       doc_chunks := Some [demo_chunk "chunk_0" "refund policy"] |};
    {| doc_filename := Some "scan.pdf";
       doc_chunks := Some [ {| sc_text := None; sc_chunk_id := Some "chunk_0" |} ] |} ].

Definition broken_store : DocumentStore :=
  {| get_database := Return tt;
     ObjectId := fun s => Return s;
     find_documents := fun _ => Return broken_documents |}.

(** A completion service that is down, and an insertion that names every
    message alike. *)
Definition failing_llm : LLMService :=
  {| create := fun _ _ _ _ => Raise (ApiError "503 Service Unavailable");
     model := "llama-3.3-70b-versatile";
     max_tokens := 7000;
     max_history := 12 |}.

Definition demo_insert (m : stored_message) : outcome string :=
  Return "65f0c0ffee65f0c0ffee0001".

(** A tokenizer for the examples: one token per character. *)
Definition char_encode (s : string) : list Z :=
  map (fun a => Z.of_nat (nat_of_ascii a)) (list_ascii_of_string s).

(** The tokens that the backwards walk of [truncate_messages] charges for
    a list: each message counted as a conversation of its own. *)
Definition single_counts (encode : string -> list Z) (l : list message) : Z :=
  sum_Z (map (fun m => count_message_tokens encode [m]) l).

(** A word as [split] produces it: not empty, no white space in it. *)
Fixpoint no_space (s : string) : bool :=
  match s with
  | EmptyString => true
  | String a rest => negb (is_space a) && no_space rest
  end.

Definition is_word (w : string) : Prop := w <> "" /\ no_space w = true.

(** * Token accountant *)

Section TokenFacts.

Variable encode : string -> list Z.

Lemma count_tokens_nonneg text : 0 <= count_tokens encode text.
Proof. unfold count_tokens. lia. Qed.

Lemma message_cost_ge m : 4 <= message_cost encode m.
Proof.
  unfold message_cost.
  pose proof (count_tokens_nonneg (Py.get "role" "" m)).
  pose proof (count_tokens_nonneg (Py.get "content" "" m)). lia.
Qed.

Lemma fold_add_message_tokens messages total :
  fold_left (add_message_tokens encode) messages total
  = total + sum_Z (map (message_cost encode) messages).
Proof.
  revert total. induction messages as [|m ms IH]; intros total; simpl.
  - lia.
  - rewrite IH. unfold add_message_tokens, message_cost. lia.
Qed.

Lemma count_message_tokens_cost messages :
  count_message_tokens encode messages
  = 2 + sum_Z (map (message_cost encode) messages).
Proof. unfold count_message_tokens. rewrite fold_add_message_tokens. lia. Qed.

Lemma sum_Z_app l1 l2 : sum_Z (l1 ++ l2) = sum_Z l1 + sum_Z l2.
Proof. induction l1 as [|x l1 IH]; simpl; [reflexivity | rewrite IH; lia]. Qed.

Lemma count_message_tokens_app l1 l2 :
  count_message_tokens encode (l1 ++ l2)
  = count_message_tokens encode l1 + sum_Z (map (message_cost encode) l2).
Proof. rewrite !count_message_tokens_cost, map_app, sum_Z_app. lia. Qed.

Lemma count_message_tokens_single m :
  count_message_tokens encode [m] = 6 + (message_cost encode m - 4).
Proof. rewrite count_message_tokens_cost. simpl. lia. Qed.

Lemma sum_cost_nonneg l : 0 <= sum_Z (map (message_cost encode) l).
Proof.
  induction l as [|m l IH]; simpl; [lia|].
  pose proof (message_cost_ge m). lia.
Qed.

(** The backwards walk only ever adds messages in front of the result,
    and their one-message counts fit in what was left of the budget. *)
Lemma take_recent_fits remaining others current result :
  current <= remaining ->
  exists added,
    take_recent encode remaining current others result = (added ++ result)%list
    /\ current + sum_Z (map (message_cost encode) added) <= remaining.
Proof.
  revert current result.
  induction others as [|m rest IH]; intros current result Hle; simpl.
  - exists []. simpl. split; [reflexivity | lia].
  - destruct (Z.leb_spec (current + count_message_tokens encode [m]) remaining)
      as [Hfit|Hover].
    + destruct (IH _ (m :: result) Hfit) as (added & -> & Hsum).
      exists (added ++ [m])%list. split.
      * now rewrite <- app_assoc.
      * rewrite map_app, sum_Z_app. simpl.
        rewrite count_message_tokens_single in Hsum. lia.
    + exists []. simpl. split; [reflexivity | lia].
Qed.

End TokenFacts.

(** * The sliding window *)

Lemma system_of_app l1 l2 : system_of (l1 ++ l2) = (system_of l1 ++ system_of l2)%list.
Proof. apply List.filter_app. Qed.

Lemma system_of_system l : system_of (system_of l) = system_of l.
Proof.
  unfold system_of. induction l as [|m l IH]; simpl; [reflexivity|].
  destruct (is_system m) eqn:E; simpl; [rewrite E, IH|]; auto.
Qed.

Lemma system_of_others l : system_of (others_of l) = [].
Proof.
  unfold system_of, others_of. induction l as [|m l IH]; simpl; [reflexivity|].
  destruct (is_system m) eqn:E; simpl; [|rewrite E]; auto.
Qed.

Lemma others_not_system l : Forall (fun m => is_system m = false) (others_of l).
Proof.
  unfold others_of. apply List.Forall_forall. intros m Hin.
  apply List.filter_In in Hin as [_ Hm]. now apply negb_true_iff in Hm.
Qed.

Lemma system_of_none l :
  Forall (fun m => is_system m = false) l -> system_of l = [].
Proof.
  unfold system_of. induction 1 as [|m l Hm _ IH]; simpl; [reflexivity|].
  now rewrite Hm.
Qed.

Lemma slice_from_drop {A : Type} (l : list A) (i : Z) :
  Py.slice l (Some i) None = drop (Z.to_nat (Py.clamp (len l) i)) l.
Proof.
  unfold Py.slice, len. apply take_ge. rewrite length_drop.
  assert (0 <= Py.clamp (Z.of_nat (length l)) i <= Z.of_nat (length l)).
  { unfold Py.clamp. destruct (Z.ltb_spec i 0); lia. }
  lia.
Qed.

Lemma slice_to_take {A : Type} (l : list A) (j : Z) :
  Py.slice l None (Some j) = take (Z.to_nat (Py.clamp (len l) j)) l.
Proof. unfold Py.slice, len. simpl. now rewrite Z.sub_0_r. Qed.

(** The window keeps every system message. *)
Lemma system_of_sliding_window max_history messages :
  system_of (sliding_window max_history messages) = system_of messages.
Proof.
  unfold sliding_window. destruct (_ >? _); [|reflexivity].
  rewrite system_of_app, system_of_system, slice_from_drop.
  rewrite (system_of_none (drop _ _)); [apply app_nil_r|].
  apply Forall_drop, others_not_system.
Qed.

(** With a positive keep-count [k] the window is the system messages and
    the last [k] other messages. *)
Lemma sliding_window_positive max_history messages :
  let k := max_history - len (system_of messages) in
  len messages > max_history -> 0 < k ->
  sliding_window max_history messages
  = (system_of messages
     ++ drop (length (others_of messages) - Z.to_nat k) (others_of messages))%list.
Proof.
  intros k Hlen Hk. unfold sliding_window, len in *.
  destruct (Z.gtb_spec (Z.of_nat (length messages)) max_history); [|lia].
  rewrite slice_from_drop. f_equal. f_equal.
  unfold Py.clamp, len. fold k.
  destruct (Z.ltb_spec (- k) 0); lia.
Qed.

(** With a keep-count [k <= 0] the slice bound [-k] is not negative, and
    the slice drops the first [-k] other messages instead of all of them. *)
Lemma sliding_window_nonpositive max_history messages :
  let k := max_history - len (system_of messages) in
  len messages > max_history -> k <= 0 ->
  sliding_window max_history messages
  = (system_of messages ++ drop (Z.to_nat (- k)) (others_of messages))%list.
Proof.
  intros k Hlen Hk. unfold sliding_window, len in *.
  destruct (Z.gtb_spec (Z.of_nat (length messages)) max_history); [|lia].
  rewrite slice_from_drop. f_equal.
  unfold Py.clamp, len. fold k.
  destruct (Z.ltb_spec (- k) 0); [lia|].
  destruct (Z.le_gt_cases (- k) (Z.of_nat (length (others_of messages)))).
  - now rewrite Z.min_l.
  - rewrite Z.min_r, !drop_ge; auto; lia.
Qed.

(** C9. For every list of messages, [count_message_tokens] is 2 plus, for
    each message, 4 plus the tokens of its role plus the tokens of its
    content; on the empty list it is 2. *)
Theorem count_message_tokens_additive (encode : string -> list Z)
    (messages : list message) :
  count_message_tokens encode messages
  = 2 + sum_Z (map (fun m => 4 + count_tokens encode (Py.get "role" "" m)
                               + count_tokens encode (Py.get "content" "" m))
                   messages)
  /\ count_message_tokens encode [] = 2.
Proof.
  split; [|reflexivity].
  apply count_message_tokens_cost.
Qed.

(** C1. With [max_history = 2] and the history [system, system, user] the
    keep-count is 0, and the window still holds the user message: the
    slice [other_messages[-0:]] is the whole list. *)
Theorem sliding_window_zero_keep_count :
  let messages := [mk_message "system" "a"; mk_message "system" "b";
                   mk_message "user" "c"] in
  len messages > 2
  /\ 2 - len (system_of messages) = 0
  /\ sliding_window 2 messages = messages
  /\ others_of (sliding_window 2 messages) = [mk_message "user" "c"].
Proof. intros messages. split_and!; compute_done. Qed.

(** * The token budget *)

Lemma slice_first {A : Type} (l : list A) : Py.slice l None (Some 1) = take 1 l.
Proof.
  rewrite slice_to_take. unfold Py.clamp, len. simpl.
  destruct l as [|x l]; [reflexivity|].
  rewrite Z.min_l; [reflexivity|]. simpl. lia.
Qed.

Lemma system_of_head_is_system l s rest : system_of l = s :: rest -> is_system s = true.
Proof.
  intros H. assert (Hin : In s (system_of l)) by (rewrite H; now left).
  now apply List.filter_In in Hin.
Qed.

(** What [truncate_messages] returns on a list that is not empty. *)
Lemma truncate_messages_cases encode messages max_tokens :
  messages <> [] ->
  let remaining := max_tokens - count_message_tokens encode (system_of messages) in
  (remaining <= 0
   /\ truncate_messages encode messages max_tokens true = take 1 (system_of messages))
  \/ (0 < remaining
      /\ exists added,
           truncate_messages encode messages max_tokens true
           = (system_of messages ++ added)%list
           /\ sum_Z (map (message_cost encode) added) <= remaining).
Proof.
  intros Hne remaining. unfold truncate_messages.
  destruct messages as [|m ms]; [congruence|].
  fold remaining. destruct (Z.leb_spec remaining 0) as [Hle|Hgt].
  - left. split; [exact Hle | apply slice_first].
  - right. split; [exact Hgt|].
    destruct (take_recent_fits encode remaining (rev (others_of (m :: ms))) 0 [])
      as (added & Heq & Hsum); [lia|].
    exists added. rewrite Heq, app_nil_r. split; [reflexivity | lia].
Qed.

(** C2. The output of context management has at most [max_tokens] tokens,
    unless it is one system message that alone has more, or it is empty,
    no system message exists and [max_tokens] is below the conversation
    constant 2; and when truncation runs with nothing left after the
    system messages, the output is the first system message, or empty if
    there is none. *)
Theorem manage_context_token_budget (encode : string -> list Z)
    (max_history max_tokens : Z) (messages : list message) :
  let out := _manage_context encode max_history max_tokens messages in
  let windowed := sliding_window max_history messages in
  (count_message_tokens encode out <= max_tokens
   \/ (exists s, out = [s] /\ is_system s = true
                 /\ max_tokens < count_message_tokens encode [s])
   \/ (out = [] /\ system_of messages = [] /\ max_tokens < 2))
  /\ (max_tokens < count_message_tokens encode windowed ->
      max_tokens - count_message_tokens encode (system_of messages) <= 0 ->
      out = take 1 (system_of messages)).
Proof.
  intros out windowed. subst out. unfold _manage_context, token_budget.
  fold windowed.
  pose proof (system_of_sliding_window max_history messages) as Hsys.
  fold windowed in Hsys.
  destruct (Z.gtb_spec (count_message_tokens encode windowed) max_tokens)
    as [Hover|Hfit].
  2: { split; [left; lia | lia]. }
  destruct (list_eq_dec windowed []) as [Hnil|Hne].
  - rewrite Hnil in *. simpl in Hsys. rewrite <- Hsys. simpl. split.
    + right. right. change (count_message_tokens encode []) with 2 in Hover.
      repeat split; lia.
    + reflexivity.
  - destruct (truncate_messages_cases encode windowed max_tokens Hne)
      as [[Hrem Heq]|[Hrem (added & Heq & Hsum)]];
      rewrite Heq, Hsys in *; clear Heq.
    + split; [|reflexivity].
      destruct (system_of messages) as [|s rest] eqn:Es; simpl.
      * change (count_message_tokens encode []) with 2 in *.
        destruct (Z.eq_dec max_tokens 2) as [->|Hne2]; [left; lia|].
        right. right. repeat split; lia.
      * destruct (Z.le_gt_cases (count_message_tokens encode [s]) max_tokens).
        -- now left.
        -- right. left. exists s. repeat split; [|lia].
           eapply system_of_head_is_system; eauto.
    + split; [|lia]. left. rewrite count_message_tokens_app. lia.
Qed.

(** Context management at one concrete history, for the hypotheses of the
    theorem above. *)
Lemma manage_context_token_budget_witness :
  let messages := [mk_message "system" "a"; mk_message "user" "b"] in
  5 < count_message_tokens char_encode (sliding_window 12 messages)
  /\ 5 - count_message_tokens char_encode (system_of messages) <= 0
  /\ _manage_context char_encode 12 5 messages = take 1 (system_of messages).
Proof.
  intros messages.
  assert (H1 : 5 < count_message_tokens char_encode (sliding_window 12 messages))
    by (vm_compute; reflexivity).
  assert (H2 : 5 - count_message_tokens char_encode (system_of messages) <= 0)
    by (vm_compute; discriminate).
  split; [exact H1 | split; [exact H2|]].
  exact (proj2 (manage_context_token_budget char_encode 12 5 messages) H1 H2).
Defined.

(** With [max_tokens = 1] the output for a single user message is empty
    and still counts 2 tokens: more than [max_tokens], and no system
    message is in it. *)
Lemma manage_context_token_budget_counterexample :
  let out := _manage_context char_encode 12 1 [mk_message "user" "hi"] in
  ~ (count_message_tokens char_encode out <= 1
     \/ exists s, In s out /\ is_system s = true
                  /\ 1 < count_message_tokens char_encode [s]).
Proof.
  intros out.
  assert (Hout : out = []) by (subst out; compute_done).
  rewrite Hout. intros [Hle | (s & [] & _)].
  revert Hle. vm_compute. intros Hle. now apply Hle.
Qed.

(** * Chunker *)

Section ChunkerFacts.

Variable words : list string.
Variables chunk_size overlap : Z.

Local Abbreviation n := (len words).

(** The chunks collected so far are only carried along. *)
Lemma chunk_loop_acc fuel chunks chunk_index start :
  chunk_loop fuel words chunk_size overlap chunks chunk_index start
  = (fun r => chunks ++ r)%list
      <$> chunk_loop fuel words chunk_size overlap [] chunk_index start.
Proof.
  revert chunks chunk_index start.
  induction fuel as [|fuel IH]; intros chunks chunk_index start; simpl.
  - destruct (start <? n); simpl; [reflexivity | now rewrite app_nil_r].
  - destruct (start <? n); simpl; [|now rewrite app_nil_r].
    rewrite IH, (IH [_]).
    destruct (chunk_loop fuel words chunk_size overlap [] _ _); simpl;
      [now rewrite <- app_assoc | reflexivity].
Qed.

Lemma chunk_loop_step fuel chunk_index start :
  start < n ->
  chunk_loop (S fuel) words chunk_size overlap [] chunk_index start
  = (fun r => window_chunk words chunk_size chunk_index start :: r)
      <$> chunk_loop fuel words chunk_size overlap [] (chunk_index + 1)
            (next_start words chunk_size overlap start).
Proof.
  intros Hlt. simpl. destruct (Z.ltb_spec start n); [|lia].
  now rewrite chunk_loop_acc.
Qed.

Lemma chunk_loop_done fuel chunks chunk_index start :
  n <= start ->
  chunk_loop fuel words chunk_size overlap chunks chunk_index start = Some chunks.
Proof.
  intros Hge. destruct fuel; simpl; destruct (Z.ltb_spec start n); auto; lia.
Qed.

(** With [overlap >= chunk_size] the loop that has reached a start
    position [<= 0] stays there: no amount of fuel lets it return. *)
Lemma chunk_loop_stuck fuel chunks chunk_index start :
  0 < n -> chunk_size < n -> chunk_size <= overlap -> start <= 0 ->
  chunk_loop fuel words chunk_size overlap chunks chunk_index start = None.
Proof.
  intros Hn Hcs Hov. revert chunks chunk_index start.
  induction fuel as [|fuel IH]; intros chunks chunk_index start Hstart; simpl;
    destruct (Z.ltb_spec start n); try lia; [reflexivity|].
  apply IH. unfold next_start, window_end.
  destruct (Z.ltb_spec (Z.min (start + chunk_size) n) n); lia.
Qed.

(** With [0 <= overlap < chunk_size] the loop returns, within as many
    passes as there are words left, a chain of windows. *)
Lemma chunk_loop_chain fuel chunk_index start :
  0 <= overlap < chunk_size -> 0 <= start < n -> n - start <= Z.of_nat fuel ->
  exists r,
    chunk_loop fuel words chunk_size overlap [] chunk_index start = Some r
    /\ window_chain words chunk_size overlap start r.
Proof.
  intros Hov. revert chunk_index start.
  induction fuel as [|fuel IH]; intros chunk_index start Hstart Hfuel; [lia|].
  rewrite chunk_loop_step by lia.
  unfold next_start, window_end.
  destruct (Z.ltb_spec (Z.min (start + chunk_size) n) n) as [Hmore|Hlast].
  - rewrite Z.min_l by lia.
    destruct (IH (chunk_index + 1) (start + chunk_size - overlap))
      as (r & -> & Hchain); [lia | lia |].
    eexists. split; [reflexivity|]. apply chain_more; [lia | exact Hchain].
  - rewrite chunk_loop_done by lia.
    eexists. split; [reflexivity|]. apply chain_last; lia.
Qed.

Lemma slice_window start stop :
  0 <= start -> start <= stop -> stop <= n ->
  Py.slice words (Some start) (Some stop)
  = take (Z.to_nat (stop - start)) (drop (Z.to_nat start) words).
Proof.
  intros H0 H1 H2. unfold Py.slice, Py.clamp. fold n.
  destruct (Z.ltb_spec start 0); [lia|].
  destruct (Z.ltb_spec stop 0); [lia|].
  now rewrite !Z.min_l by lia.
Qed.

Lemma window_chunk_describes chunk_index start :
  0 < chunk_size -> 0 <= start < n ->
  describes words (window_chunk words chunk_size chunk_index start).
Proof.
  intros Hcs Hstart. unfold describes, window_chunk, window_end. simpl.
  rewrite slice_window by lia.
  assert (Hlen : len (take (Z.to_nat (Z.min (start + chunk_size) n - start))
                        (drop (Z.to_nat start) words))
                 = Z.min (start + chunk_size) n - start).
  { unfold len in *. rewrite length_take, length_drop. lia. }
  rewrite Hlen. repeat split; try lia.
Qed.

Lemma window_chain_head start r :
  window_chain words chunk_size overlap start r ->
  exists c rest, r = c :: rest /\ start_word c = start
                 /\ end_word c = Z.min (start + chunk_size) n.
Proof. destruct 1; eexists _, _; repeat split. Qed.

Lemma window_chain_describes start r :
  0 <= overlap < chunk_size -> 0 <= start ->
  window_chain words chunk_size overlap start r ->
  Forall (describes words) r.
Proof.
  intros Hov Hstart Hchain. induction Hchain as [s i Hs Hn | s i rest Hs _ IH].
  - constructor; [|constructor]. apply window_chunk_describes; lia.
  - constructor; [apply window_chunk_describes; lia | apply IH; lia].
Qed.

(** Neighbours in a chain: the later one starts later, [overlap] words
    before the end of the earlier one, and ends later. *)
Lemma window_chain_neighbours start r i c d :
  0 <= overlap < chunk_size ->
  window_chain words chunk_size overlap start r ->
  r !! i = Some c -> r !! S i = Some d ->
  start_word c < start_word d /\ start_word d <= end_word c
  /\ range_overlap c d = overlap.
Proof.
  intros Hov Hchain. revert i.
  induction Hchain as [s k Hs Hn | s k rest Hs Hrest IH]; intros i Hc Hd.
  - destruct i; discriminate.
  - destruct i as [|i]; [|exact (IH i Hc Hd)].
    simpl in Hc, Hd. injection Hc as <-.
    destruct (window_chain_head _ _ Hrest) as (d' & rest' & -> & Hds & Hde).
    simpl in Hd. injection Hd as <-.
    unfold range_overlap. rewrite Hds, Hde. simpl. unfold window_end. lia.
Qed.

Lemma window_chain_covers start r j :
  0 <= overlap < chunk_size ->
  window_chain words chunk_size overlap start r ->
  start <= j < n -> exists c, In c r /\ covers c j.
Proof.
  intros Hov Hchain. induction Hchain as [s k Hs Hn | s k rest Hs _ IH]; intros Hj.
  - eexists. split; [now left|]. unfold covers, window_chunk, window_end. simpl. lia.
  - destruct (Z.lt_ge_cases j (s + chunk_size)) as [Hin|Hout].
    + eexists. split; [now left|]. unfold covers, window_chunk, window_end. simpl. lia.
    + destruct IH as (c & Hc & Hcov); [lia|]. exists c. split; [now right | exact Hcov].
Qed.

(** A loop that has returned returns the same with more fuel. *)
Lemma chunk_loop_more_fuel fuel fuel' chunks chunk_index start r :
  chunk_loop fuel words chunk_size overlap chunks chunk_index start = Some r ->
  (fuel <= fuel')%nat ->
  chunk_loop fuel' words chunk_size overlap chunks chunk_index start = Some r.
Proof.
  revert fuel' chunks chunk_index start.
  induction fuel as [|fuel IH]; intros fuel' chunks chunk_index start Hrun Hle;
    destruct fuel' as [|fuel']; simpl in *;
    destruct (start <? n); try discriminate; try lia; auto.
  apply IH; [exact Hrun | lia].
Qed.

End ChunkerFacts.

(** C8. For all [chunk_size > overlap >= 0] and every text with more than
    [chunk_size] words, chunking returns (as many passes as there are
    words suffice), and the chunks it returns describe word ranges with
    [end_word - start_word = word_count], start at strictly increasing
    positions, overlap their successor by exactly [overlap] words, leave
    no gap, and cover every word of the text. *)
Theorem chunk_text_windows (text : string) (chunk_size overlap : Z) :
  0 <= overlap < chunk_size ->
  chunk_size < len (split text) ->
  exists chunks,
    (forall fuel, (length (split text) <= fuel)%nat ->
       chunk_text fuel text chunk_size overlap = Some chunks)
    /\ Forall (describes (split text)) chunks
    /\ (forall i c d, chunks !! i = Some c -> chunks !! S i = Some d ->
          start_word c < start_word d /\ start_word d <= end_word c
          /\ range_overlap c d = overlap)
    /\ (forall j, 0 <= j < len (split text) ->
          exists c, In c chunks /\ covers c j).
Proof.
  intros Hov Hwords.
  destruct (chunk_loop_chain (split text) chunk_size overlap
              (length (split text)) 0 0 Hov)
    as (chunks & Hrun & Hchain); [lia | unfold len; lia |].
  exists chunks. split_and!.
  - intros fuel Hfuel. unfold chunk_text.
    destruct (Z.leb_spec (len (split text)) chunk_size); [lia|].
    eapply chunk_loop_more_fuel; eauto.
  - eapply window_chain_describes; eauto. lia.
  - intros i c d. eapply window_chain_neighbours; eauto.
  - intros j Hj.
    exact (window_chain_covers (split text) chunk_size overlap 0 chunks j Hov Hchain Hj).
Qed.

(** The theorem above at a text of seven words, windows of three words
    and one word of overlap. *)
Lemma chunk_text_windows_witness :
  0 <= 1 < 3 /\ 3 < len (split "a b c d e f g")
  /\ exists chunks,
       (forall fuel, (length (split "a b c d e f g") <= fuel)%nat ->
          chunk_text fuel "a b c d e f g" 3 1 = Some chunks)
       /\ Forall (describes (split "a b c d e f g")) chunks
       /\ (forall i c d, chunks !! i = Some c -> chunks !! S i = Some d ->
             start_word c < start_word d /\ start_word d <= end_word c
             /\ range_overlap c d = 1)
       /\ (forall j, 0 <= j < len (split "a b c d e f g") ->
             exists c, In c chunks /\ covers c j).
Proof.
  assert (H1 : 0 <= 1 < 3) by lia.
  assert (H2 : 3 < len (split "a b c d e f g")) by (vm_compute; reflexivity).
  split; [exact H1 | split; [exact H2|]].
  exact (chunk_text_windows "a b c d e f g" 3 1 H1 H2).
Defined.

(** C3. No validation of [overlap] against [chunk_size] exists: for every
    text with more than [chunk_size] words (and at least one word) and
    every [overlap >= chunk_size], chunking raises nothing and does not
    clamp; its loop never gets past a start position [<= 0], so that it
    has not returned after any number of passes. *)
Theorem chunk_text_overlap_not_rejected (text : string) (chunk_size overlap : Z) :
  0 < len (split text) ->
  chunk_size < len (split text) ->
  chunk_size <= overlap ->
  forall fuel, chunk_text fuel text chunk_size overlap = None.
Proof.
  intros Hn Hcs Hov fuel. unfold chunk_text.
  destruct (Z.leb_spec (len (split text)) chunk_size); [lia|].
  apply chunk_loop_stuck; auto; lia.
Qed.

(** The theorem above at a text of three words with
    [chunk_size = overlap = 2]. *)
Lemma chunk_text_overlap_not_rejected_witness :
  0 < len (split "a b c") /\ 2 < len (split "a b c") /\ 2 <= 2
  /\ chunk_text 1000 "a b c" 2 2 = None.
Proof.
  assert (H1 : 0 < len (split "a b c")) by (vm_compute; reflexivity).
  assert (H2 : 2 < len (split "a b c")) by (vm_compute; reflexivity).
  assert (H3 : 2 <= 2) by lia.
  split; [exact H1 | split; [exact H2 | split; [exact H3|]]].
  exact (chunk_text_overlap_not_rejected "a b c" 2 2 H1 H2 H3 1000%nat).
Defined.

(** With [chunk_size = overlap = 2] and a text of three words chunking
    neither raises nor returns chunks, however long it runs. *)
Lemma chunk_text_overlap_counterexample :
  ~ exists fuel chunks, chunk_text fuel "a b c" 2 2 = Some chunks.
Proof.
  intros (fuel & chunks & Hrun). unfold chunk_text in Hrun.
  change (split "a b c") with ["a"; "b"; "c"] in Hrun.
  change (len ["a"; "b"; "c"] <=? 2) with false in Hrun.
  rewrite chunk_loop_stuck in Hrun; [discriminate | | | |]; unfold len; simpl; lia.
Qed.

(** * Relevance scorer *)

Ltac set_ext :=
  apply set_eq; intros ?;
  rewrite ?elem_of_union, ?elem_of_intersection, ?elem_of_empty; tauto.

Lemma size_word_set_pos (X : gset string) : X <> ∅ -> size X <> 0%nat.
Proof. intros HX H0. apply size_empty_iff, leibniz_equiv in H0. contradiction. Qed.

Lemma word_set_unique_words s : word_set s = list_to_set (unique_words s).
Proof.
  unfold word_set, unique_words. apply set_eq. intros w.
  now rewrite !elem_of_list_to_set, elem_of_remove_dups.
Qed.

Lemma unique_words_NoDup s : NoDup (unique_words s).
Proof. apply NoDup_remove_dups. Qed.

Lemma word_set_empty s : word_set s = ∅ <-> unique_words s = [].
Proof.
  rewrite word_set_unique_words. split.
  - intros H. destruct (unique_words s) as [|w l]; [reflexivity|].
    exfalso. assert (Hw : w ∈ (∅ : gset string)).
    { rewrite <- H. apply elem_of_list_to_set. left. }
    now apply elem_of_empty in Hw.
  - now intros ->.
Qed.

Lemma size_intersection_words (a b : list string) :
  NoDup a ->
  size ((list_to_set a : gset string) ∩ list_to_set b)
  = length (list_intersection a b).
Proof.
  intros Ha. rewrite <- (size_list_to_set (C := gset string) (list_intersection a b)).
  - f_equal. apply set_eq. intros w.
    rewrite elem_of_intersection, !elem_of_list_to_set, list_elem_of_intersection.
    reflexivity.
  - now apply NoDup_list_intersection.
Qed.

Lemma size_union_words (a b : list string) :
  NoDup a -> NoDup b ->
  size ((list_to_set a : gset string) ∪ list_to_set b)
  = length (list_union a b).
Proof.
  intros Ha Hb. rewrite <- (size_list_to_set (C := gset string) (list_union a b)).
  - f_equal. apply set_eq. intros w.
    rewrite elem_of_union, !elem_of_list_to_set, list_elem_of_union.
    reflexivity.
  - now apply NoDup_list_union.
Qed.

Lemma Zpos_of_nat (k : nat) : k <> 0%nat -> Z.pos (Pos.of_nat k) = Z.of_nat k.
Proof. intros Hk. rewrite <- positive_nat_Z, Nat2Pos.id; auto. Qed.

(** The score in closed form. *)
Lemma calculate_relevance_score_nonempty query chunk_text :
  word_set query <> ∅ -> word_set chunk_text <> ∅ ->
  calculate_relevance_score query chunk_text
  = (Z.of_nat (size (word_set query ∩ word_set chunk_text))
     # Pos.of_nat (size (word_set query ∪ word_set chunk_text)))%Q.
Proof.
  intros Hq Hc. unfold calculate_relevance_score.
  rewrite !bool_decide_eq_false_2; auto.
  intros Hu. apply Hq. apply set_eq. intros w. split; [|now rewrite elem_of_empty].
  intros Hw. rewrite <- Hu. apply elem_of_union. now left.
Qed.

Lemma calculate_relevance_score_empty query chunk_text :
  word_set query = ∅ \/ word_set chunk_text = ∅ ->
  calculate_relevance_score query chunk_text = 0%Q.
Proof.
  intros H. unfold calculate_relevance_score.
  destruct (bool_decide_reflect (word_set query = ∅)); [reflexivity|].
  destruct (bool_decide_reflect (word_set chunk_text = ∅)); [reflexivity|].
  tauto.
Qed.

Lemma calculate_relevance_score_range query chunk_text :
  (0 <= calculate_relevance_score query chunk_text
   /\ calculate_relevance_score query chunk_text <= 1)%Q.
Proof.
  destruct (decide (word_set query = ∅)) as [Hq|Hq].
  { rewrite calculate_relevance_score_empty by auto. split; discriminate. }
  destruct (decide (word_set chunk_text = ∅)) as [Hc|Hc].
  { rewrite calculate_relevance_score_empty by auto. split; discriminate. }
  rewrite calculate_relevance_score_nonempty by auto.
  assert (Hle : (size (word_set query ∩ word_set chunk_text)
                 <= size (word_set query ∪ word_set chunk_text))%nat)
    by (apply subseteq_size; intros w; rewrite elem_of_intersection, elem_of_union; tauto).
  assert (Hpos : size (word_set query ∪ word_set chunk_text) <> 0%nat).
  { apply size_word_set_pos. intros Hu. apply Hq. apply set_eq. intros w.
    split; [|now rewrite elem_of_empty].
    intros Hw. rewrite <- Hu. apply elem_of_union. now left. }
  unfold Qle. simpl. rewrite Zpos_of_nat by exact Hpos. lia.
Qed.

(** C6. The score is the Jaccard quotient of the two lists of unique
    normalised words, lies between 0 and 1, is 0 when one of the word
    sets is empty, and is 1/4 for the query "refund policy" against the
    chunk "Our refund policy allows returns within 30 days". *)
Theorem relevance_score_is_jaccard (query chunk_text : string) :
  calculate_relevance_score query chunk_text
  = jaccard (unique_words query) (unique_words chunk_text)
  /\ (0 <= calculate_relevance_score query chunk_text)%Q
  /\ (calculate_relevance_score query chunk_text <= 1)%Q
  /\ (word_set query = ∅ \/ word_set chunk_text = ∅ ->
      calculate_relevance_score query chunk_text = 0%Q)
  /\ Qeq (calculate_relevance_score "refund policy"
            "Our refund policy allows returns within 30 days") (1 # 4).
Proof.
  split_and!.
  - destruct (decide (word_set query = ∅)) as [Hq|Hq].
    { rewrite calculate_relevance_score_empty by auto.
      apply word_set_empty in Hq. now rewrite Hq. }
    destruct (decide (word_set chunk_text = ∅)) as [Hc|Hc].
    { rewrite calculate_relevance_score_empty by auto.
      apply word_set_empty in Hc. rewrite Hc.
      now destruct (unique_words query). }
    rewrite calculate_relevance_score_nonempty by auto.
    rewrite !word_set_unique_words.
    rewrite size_intersection_words, size_union_words
      by apply unique_words_NoDup.
    rewrite word_set_empty in Hq, Hc. unfold jaccard.
    destruct (unique_words query); [congruence|].
    destruct (unique_words chunk_text); [congruence|]. reflexivity.
  - apply calculate_relevance_score_range.
  - apply calculate_relevance_score_range.
  - apply calculate_relevance_score_empty.
  - vm_compute. reflexivity.
Qed.

(** The theorem above at a query without any word character. *)
Lemma relevance_score_is_jaccard_witness :
  (word_set "?!" = ∅ \/ word_set "refund" = ∅)
  /\ calculate_relevance_score "?!" "refund" = 0%Q.
Proof.
  assert (H : word_set "?!" = ∅ \/ word_set "refund" = ∅)
    by (left; vm_compute; reflexivity).
  split; [exact H|].
  exact (proj1 (proj2 (proj2 (proj2 (relevance_score_is_jaccard "?!" "refund")))) H).
Defined.

(** C7. The score is symmetric, the score of a string against itself is
    1 as soon as the string holds at least one word, and the score
    against the empty string is 0. *)
Theorem relevance_score_symmetric (q c : string) :
  calculate_relevance_score q c = calculate_relevance_score c q
  /\ (word_set q <> ∅ -> Qeq (calculate_relevance_score q q) 1)
  /\ calculate_relevance_score q "" = 0%Q.
Proof.
  split_and!.
  - unfold calculate_relevance_score.
    assert (Hi : word_set q ∩ word_set c = word_set c ∩ word_set q) by set_ext.
    assert (Hu : word_set q ∪ word_set c = word_set c ∪ word_set q) by set_ext.
    now rewrite Hi, Hu, orb_comm.
  - intros Hq. rewrite calculate_relevance_score_nonempty by auto.
    assert (Hi : word_set q ∩ word_set q = word_set q) by set_ext.
    assert (Hu : word_set q ∪ word_set q = word_set q) by set_ext.
    rewrite Hi, Hu.
    pose proof (size_word_set_pos _ Hq) as Hpos.
    unfold Qeq. simpl. rewrite Zpos_of_nat by exact Hpos. lia.
  - apply calculate_relevance_score_empty. right. reflexivity.
Qed.

(** The theorem above at the query "refund policy". *)
Lemma relevance_score_symmetric_witness :
  word_set "refund policy" <> ∅
  /\ Qeq (calculate_relevance_score "refund policy" "refund policy") 1.
Proof.
  assert (H : word_set "refund policy" <> ∅) by (vm_compute; discriminate).
  split; [exact H|].
  exact (proj1 (proj2 (relevance_score_symmetric "refund policy" "")) H).
Defined.

(** A non-empty string without word characters scores 0 against itself. *)
Lemma relevance_score_self_counterexample :
  "?!" <> "" /\ ~ Qeq (calculate_relevance_score "?!" "?!") 1.
Proof. split; [discriminate | vm_compute; discriminate]. Qed.

(** * Retriever *)

Section SortFacts.

Context {A : Type} (key : A -> Q).

Lemma insert_reverse_perm x l : Permutation (insert_reverse key x l) (x :: l).
Proof.
  induction l as [|y l IH]; simpl; [reflexivity|].
  destruct (Qle_bool (key y) (key x)); [reflexivity|].
  rewrite IH. apply perm_swap.
Qed.

Lemma sort_reverse_perm l : Permutation (sort_reverse key l) l.
Proof.
  induction l as [|x l IH]; simpl; [reflexivity|].
  rewrite insert_reverse_perm. now constructor.
Qed.

Lemma insert_reverse_descending x l :
  descending key l -> descending key (insert_reverse key x l).
Proof.
  unfold descending. induction 1 as [|y l Hl IH Hy]; simpl.
  - repeat constructor.
  - destruct (Qle_bool (key y) (key x)) eqn:E.
    + apply Qle_bool_iff in E. constructor; [now constructor|].
      constructor; [exact E|].
      eapply List.Forall_impl; [|exact Hy]. intros z Hz. simpl in Hz.
      eapply Qle_trans; eauto.
    + constructor; [exact IH|].
      assert (Hxy : (key x <= key y)%Q).
      { apply Qlt_le_weak, Qnot_le_lt. intros H. apply Qle_bool_iff in H. congruence. }
      apply List.Forall_forall. intros z Hz.
      apply (Permutation_in _ (insert_reverse_perm x l)) in Hz as [<-|Hz]; [exact Hxy|].
      eapply List.Forall_forall in Hy; eauto.
Qed.

Lemma sort_reverse_descending l : descending key (sort_reverse key l).
Proof.
  induction l as [|x l IH]; simpl; [constructor|].
  now apply insert_reverse_descending.
Qed.

(** An inserted element only passes elements with a strictly larger key:
    among equal keys it stays first. *)
Lemma with_key_insert_reverse v x l :
  with_key key v (insert_reverse key x l) = with_key key v (x :: l).
Proof.
  unfold with_key. induction l as [|y l IH]; simpl; [reflexivity|].
  destruct (Qle_bool (key y) (key x)) eqn:E; [reflexivity|].
  simpl. rewrite IH. simpl.
  destruct (Qeq_bool (key x) v) eqn:Ex; [|reflexivity].
  destruct (Qeq_bool (key y) v) eqn:Ey; [|reflexivity].
  exfalso. apply Qeq_bool_iff in Ex, Ey.
  assert (H : Qle_bool (key y) (key x) = true).
  { apply Qle_bool_iff. rewrite Ex, Ey. apply Qle_refl. }
  congruence.
Qed.

Lemma with_key_sort_reverse v l :
  with_key key v (sort_reverse key l) = with_key key v l.
Proof.
  induction l as [|x l IH]; simpl; [reflexivity|].
  rewrite with_key_insert_reverse. unfold with_key in *. simpl. now rewrite IH.
Qed.

Lemma descending_take k l : descending key l -> descending key (take k l).
Proof.
  unfold descending. intros H. revert k.
  induction H as [|x l Hl IH Hx]; intros [|k]; simpl; try constructor; auto.
  apply List.Forall_forall. intros z Hz.
  eapply List.Forall_forall in Hx; eauto.
  apply list_elem_of_In. apply (subseteq_take k l). apply list_elem_of_In. exact Hz.
Qed.

End SortFacts.

Lemma slice_top_k {A : Type} (l : list A) (top_k : Z) :
  0 <= top_k -> Py.slice l None (Some top_k) = take (Z.to_nat top_k) l.
Proof.
  intros Hk. rewrite slice_to_take. unfold Py.clamp, len.
  destruct (Z.ltb_spec top_k 0); [lia|].
  destruct (Z.le_gt_cases top_k (Z.of_nat (length l))).
  - now rewrite Z.min_l.
  - rewrite Z.min_r, !take_ge; auto; lia.
Qed.

Lemma score_chunk_scores query doc c s :
  score_chunk query doc c = Return s -> scores query c s.
Proof.
  unfold score_chunk, scores. destruct (sc_text c); [|discriminate]. simpl.
  destruct (sc_chunk_id c); [|discriminate]. simpl.
  destruct (doc_filename doc); [|discriminate]. simpl.
  intros [= <-]. simpl. auto.
Qed.

Lemma score_chunks_scores query doc chunks acc r :
  score_chunks query doc chunks acc = Return r ->
  exists new, r = (acc ++ new)%list /\ Forall2 (scores query) chunks new.
Proof.
  revert acc. induction chunks as [|c chunks IH]; intros acc; simpl.
  - intros [= <-]. exists []. split; [now rewrite app_nil_r | constructor].
  - destruct (score_chunk query doc c) as [s|e] eqn:E; [|discriminate]. simpl.
    intros Hrest. destruct (IH _ Hrest) as (new & -> & Hnew).
    exists (s :: new). split; [now rewrite <- app_assoc|].
    constructor; [|exact Hnew]. eapply score_chunk_scores; eauto.
Qed.

Lemma score_documents_scores query documents acc r :
  score_documents query documents acc = Return r ->
  exists new, r = (acc ++ new)%list /\ Forall2 (scores query) (pool documents) new.
Proof.
  revert acc. induction documents as [|doc documents IH]; intros acc; simpl.
  - intros [= <-]. exists []. split; [now rewrite app_nil_r | constructor].
  - destruct (score_chunks query doc (chunks_of doc) acc) as [r1|e] eqn:E;
      [|discriminate]. simpl.
    intros Hrest. destruct (score_chunks_scores _ _ _ _ _ E) as (new1 & -> & H1).
    destruct (IH _ Hrest) as (new2 & -> & H2).
    exists (new1 ++ new2)%list. split; [now rewrite <- app_assoc|].
    unfold pool. simpl. now apply Forall2_app.
Qed.

(** The body of the [try] once the store has answered. *)
Lemma retrieve_body_fetched store conversation_id query top_k oid documents :
  get_database store = Return tt ->
  ObjectId store conversation_id = Return oid ->
  find_documents store oid = Return documents ->
  retrieve_body store conversation_id query top_k
  = (scored_chunks ← score_documents query documents [];
     Return (map s_text
               (Py.slice (sort_reverse s_score scored_chunks) None (Some top_k)))).
Proof.
  intros Hdb Hid Hfind. unfold retrieve_body. rewrite Hdb. simpl.
  rewrite Hid. simpl. rewrite Hfind. simpl.
  destruct documents; [|reflexivity].
  simpl. unfold Py.slice. now rewrite drop_nil, take_nil.
Qed.

Lemma retrieve_cases store conversation_id query top_k :
  0 <= top_k ->
  retrieve_relevant_chunks store conversation_id query top_k = []
  \/ exists oid documents scored,
       get_database store = Return tt
       /\ ObjectId store conversation_id = Return oid
       /\ find_documents store oid = Return documents
       /\ score_documents query documents [] = Return scored
       /\ retrieve_relevant_chunks store conversation_id query top_k
          = map s_text (take (Z.to_nat top_k) (sort_reverse s_score scored)).
Proof.
  intros Hk. unfold retrieve_relevant_chunks.
  destruct (get_database store) as [[]|e] eqn:Hdb;
    [|left; unfold retrieve_body; now rewrite Hdb].
  destruct (ObjectId store conversation_id) as [oid|e] eqn:Hid;
    [|left; unfold retrieve_body; now rewrite Hdb; simpl; rewrite Hid].
  destruct (find_documents store oid) as [documents|e] eqn:Hfind;
    [|left; unfold retrieve_body; rewrite Hdb; simpl; rewrite Hid; simpl;
      now rewrite Hfind].
  rewrite (retrieve_body_fetched _ _ _ _ _ _ Hdb Hid Hfind).
  destruct (score_documents query documents []) as [scored|e] eqn:Hscore;
    [|now left].
  right. exists oid, documents, scored. simpl. rewrite slice_top_k by exact Hk.
  auto.
Qed.

Lemma Forall2_In_r {A B : Type} (R : A -> B -> Prop) l k y :
  Forall2 R l k -> In y k -> exists x, In x l /\ R x y.
Proof.
  induction 1 as [|x y' l k Hxy _ IH]; intros Hin; [destruct Hin|].
  destruct Hin as [<-|Hin]; [exists x; split; [now left | exact Hxy]|].
  destruct (IH Hin) as (x' & Hx' & HR). exists x'. split; [now right | exact HR].
Qed.

Lemma descending_map_text query l :
  descending s_score l ->
  Forall (fun s => s_score s = calculate_relevance_score query (s_text s)) l ->
  descending (calculate_relevance_score query) (map s_text l).
Proof.
  unfold descending. induction 1 as [|s l Hl IH Hs]; intros Hall; simpl;
    [constructor|].
  apply List.Forall_cons_iff in Hall as [Hhead Hall].
  constructor; [now apply IH|].
  apply List.Forall_map, List.Forall_forall. intros z Hz.
  rewrite <- Hhead, <- (proj1 (List.Forall_forall _ _) Hall z Hz).
  exact (proj1 (List.Forall_forall _ _) Hs z Hz).
Qed.

(** C5. For [top_k >= 0] retrieval returns at most [top_k] texts, in
    non-increasing order of their score; once the store has answered,
    every returned text is the text of a chunk of the pool, an empty pool
    gives the empty result, and the result is the texts of the first
    [top_k] entries of the stable descending sort of the scored pool:
    entries with equal scores keep their encounter order. *)
Theorem retrieve_top_k (store : DocumentStore) (conversation_id query : string)
    (top_k : Z) :
  0 <= top_k ->
  let result := retrieve_relevant_chunks store conversation_id query top_k in
  len result <= top_k
  /\ descending (calculate_relevance_score query) result
  /\ forall oid documents,
       get_database store = Return tt ->
       ObjectId store conversation_id = Return oid ->
       find_documents store oid = Return documents ->
       (forall t, In t result ->
          exists c, In c (pool documents) /\ sc_text c = Some t)
       /\ (pool documents = [] -> result = [])
       /\ forall scored,
            score_documents query documents [] = Return scored ->
            Forall2 (scores query) (pool documents) scored
            /\ exists sorted,
                 result = map s_text (take (Z.to_nat top_k) sorted)
                 /\ Permutation sorted scored
                 /\ descending s_score sorted
                 /\ forall v, with_key s_score v sorted = with_key s_score v scored.
Proof.
  intros Hk result.
  destruct (retrieve_cases store conversation_id query top_k Hk)
    as [Hnil | (oid & documents & scored & Hdb & Hid & Hfind & Hscore & Hres)];
    fold result in Hnil || fold result in Hres.
  - rewrite Hnil. split_and!.
    + unfold len. simpl. lia.
    + constructor.
    + intros oid documents Hdb Hid Hfind. split_and!.
      * intros t [].
      * reflexivity.
      * intros scored Hscore.
        destruct (score_documents_scores _ _ _ _ Hscore) as (new & -> & Hnew).
        split; [exact Hnew|]. simpl.
        exists (sort_reverse s_score new). split_and!.
        -- subst result. unfold retrieve_relevant_chunks in Hnil.
           rewrite (retrieve_body_fetched _ _ _ _ _ _ Hdb Hid Hfind) in Hnil.
           rewrite Hscore in Hnil. simpl in Hnil.
           now rewrite slice_top_k in Hnil by exact Hk.
        -- apply sort_reverse_perm.
        -- apply sort_reverse_descending.
        -- intros v. apply with_key_sort_reverse.
  - destruct (score_documents_scores _ _ _ _ Hscore) as (new & Hnew_eq & Hnew).
    simpl in Hnew_eq. subst new.
    assert (Hall : Forall (fun s => s_score s
                     = calculate_relevance_score query (s_text s))
                     (sort_reverse s_score scored)).
    { apply List.Forall_forall. intros s Hs.
      apply (Permutation_in _ (sort_reverse_perm s_score scored)) in Hs.
      destruct (Forall2_In_r _ _ _ _ Hnew Hs) as (c & _ & _ & Hc). exact Hc. }
    rewrite Hres. split_and!.
    + unfold len. rewrite length_map, length_take. lia.
    + apply descending_map_text.
      * apply descending_take, sort_reverse_descending.
      * apply Forall_take. exact Hall.
    + intros oid' documents' Hdb' Hid' Hfind'.
      assert (oid' = oid) by congruence. subst oid'.
      assert (documents' = documents) by congruence. subst documents'.
      split_and!.
      * intros t Ht. apply in_map_iff in Ht as (s & <- & Hs).
        assert (Hin : In s scored).
        { apply (Permutation_in _ (sort_reverse_perm s_score scored)).
          apply list_elem_of_In. apply (subseteq_take (Z.to_nat top_k)).
          now apply list_elem_of_In. }
        destruct (Forall2_In_r _ _ _ _ Hnew Hin) as (c & Hc & Htext & _).
        exists c. split; [exact Hc | exact Htext].
      * intros Hpool. rewrite Hpool in Hnew. inversion Hnew. subst.
        simpl. now rewrite take_nil.
      * intros scored' Hscore'.
        assert (scored' = scored) by congruence. subst scored'.
        split; [exact Hnew|].
        exists (sort_reverse s_score scored). split_and!.
        -- reflexivity.
        -- apply sort_reverse_perm.
        -- apply sort_reverse_descending.
        -- intros v. apply with_key_sort_reverse.
Qed.

(** The theorem above on the example store, for the two best chunks. *)
Lemma retrieve_top_k_witness :
  let result := retrieve_relevant_chunks demo_store demo_id "refund policy" 2 in
  0 <= 2
  /\ get_database demo_store = Return tt
  /\ ObjectId demo_store demo_id = Return demo_id
  /\ find_documents demo_store demo_id = Return demo_documents
  /\ len result <= 2
  /\ (forall t, In t result ->
        exists c, In c (pool demo_documents) /\ sc_text c = Some t).
Proof.
  intros result.
  assert (H0 : 0 <= 2) by lia.
  assert (H1 : get_database demo_store = Return tt) by reflexivity.
  assert (H2 : ObjectId demo_store demo_id = Return demo_id) by reflexivity.
  assert (H3 : find_documents demo_store demo_id = Return demo_documents)
    by reflexivity.
  pose proof (retrieve_top_k demo_store demo_id "refund policy" 2 H0) as H.
  split_and!; try assumption.
  - exact (proj1 H).
  - exact (proj1 (proj2 (proj2 H) demo_id demo_documents H1 H2 H3)).
Defined.

Example retrieve_demo :
  retrieve_relevant_chunks demo_store demo_id "refund policy" 2
  = ["Policy refund"; "refund policy now"].
Proof. vm_compute. reflexivity. Qed.

(** With [top_k = -1] the slice [scored_chunks[:-1]] drops the last entry
    only: four texts come back from a pool of five. *)
Lemma retrieve_negative_top_k_counterexample :
  ~ len (retrieve_relevant_chunks demo_store demo_id "refund policy" (-1)) <= -1.
Proof. vm_compute. intros H. now apply H. Qed.

(** C10. Retrieval returns a list for every input: whatever exception
    the body of its [try] raises (no database, a malformed conversation
    id, a failing query, a missing key), the result is the empty list,
    the same as when the conversation has no documents; a grounded
    request then generates exactly as an open chat does. *)
Theorem retrieve_never_raises (store : DocumentStore)
    (conversation_id query : string) (top_k : Z) :
  (forall e, retrieve_body store conversation_id query top_k = Raise e ->
     retrieve_relevant_chunks store conversation_id query top_k = [])
  /\ (forall e, get_database store = Raise e ->
        retrieve_relevant_chunks store conversation_id query top_k = [])
  /\ (forall e, ObjectId store conversation_id = Raise e ->
        retrieve_relevant_chunks store conversation_id query top_k = [])
  /\ (forall oid e, ObjectId store conversation_id = Return oid ->
        find_documents store oid = Raise e ->
        retrieve_relevant_chunks store conversation_id query top_k = [])
  /\ (forall oid, get_database store = Return tt ->
        ObjectId store conversation_id = Return oid ->
        find_documents store oid = Return [] ->
        retrieve_body store conversation_id query top_k = Return []
        /\ retrieve_relevant_chunks store conversation_id query top_k = [])
  /\ (forall e encode self history,
        retrieve_body store conversation_id query 3 = Raise e ->
        generate_for_mode encode self store conversation_id query history GROUNDED_RAG
        = generate_for_mode encode self store conversation_id query history OPEN_CHAT).
Proof.
  unfold retrieve_relevant_chunks. split_and!.
  - intros e ->. reflexivity.
  - intros e He. unfold retrieve_body. now rewrite He.
  - intros e He. unfold retrieve_body.
    destruct (get_database store); simpl; [now rewrite He | reflexivity].
  - intros oid e Hid He. unfold retrieve_body.
    destruct (get_database store); simpl; [|reflexivity].
    rewrite Hid. simpl. now rewrite He.
  - intros oid Hdb Hid Hfind. unfold retrieve_body.
    rewrite Hdb. simpl. rewrite Hid. simpl. rewrite Hfind. simpl. auto.
  - intros e encode self history He. unfold generate_for_mode.
    unfold retrieve_relevant_chunks. now rewrite He.
Qed.

(** The theorem above for a malformed conversation id. *)
Lemma retrieve_never_raises_witness :
  ObjectId demo_store "not-an-id" = Raise (InvalidId "not-an-id")
  /\ retrieve_relevant_chunks demo_store "not-an-id" "refund policy" 3 = [].
Proof.
  assert (H : ObjectId demo_store "not-an-id" = Raise (InvalidId "not-an-id"))
    by reflexivity.
  split; [exact H|].
  exact (proj1 (proj2 (proj2
           (retrieve_never_raises demo_store "not-an-id" "refund policy" 3)))
           _ H).
Defined.

(** * Grounded generation *)

Lemma is_system_mk_message content : is_system (mk_message "system" content) = true.
Proof.
  unfold is_system, mk_message. apply bool_decide_eq_true_2.
  apply lookup_insert_eq.
Qed.

Lemma content_mk_message role content :
  Py.get "content" "" (mk_message role content) = content.
Proof.
  unfold Py.get, mk_message.
  rewrite lookup_insert_ne by discriminate. now rewrite lookup_insert_eq.
Qed.

Lemma enumerate_from_lookup {A : Type} (l : list A) (k i : nat) (x : A) :
  l !! i = Some x -> Py.enumerate_from k l !! i = Some ((k + i)%nat, x).
Proof.
  revert k i. induction l as [|y l IH]; intros k [|i]; simpl; try discriminate.
  - intros [= ->]. now rewrite Nat.add_0_r.
  - intros H. rewrite (IH (S k) i H). do 2 f_equal. lia.
Qed.

Lemma enumerate_from_length {A : Type} (l : list A) (k : nat) :
  length (Py.enumerate_from k l) = length l.
Proof. revert k. induction l; intros k; simpl; auto. Qed.

(** C4. In grounded mode with [k >= 1] retrieved chunks the completion is
    requested for the instruction message and the context message, both
    of role system, followed by the history and the user query; the
    context message joins the [k] chunk texts labelled Document Excerpt 1
    to Document Excerpt [k] in retrieval order; and the stored metadata
    reports [chunks_used = k]. With no retrieved chunk the completion is
    requested for the history and the user query alone, and the metadata
    reports [chunks_used = 0]. *)
Theorem grounded_generation (encode : string -> list Z) (self : LLMService)
    (store : DocumentStore) (conversation_id user_message : string)
    (history : list message) (sequence_number : Z) :
  let chunks := retrieve_relevant_chunks store conversation_id user_message 3 in
  let stored :=
    _generate_and_store_response encode self store conversation_id user_message
      history sequence_number GROUNDED_RAG in
  (chunks <> [] ->
     let messages :=
       (rag_system_message :: context_message chunks :: history
        ++ [user_query user_message])%list in
     let response := generate_response encode self messages default_temperature 1024 in
     generate_for_mode encode self store conversation_id user_message history
       GROUNDED_RAG = set_chunks_used response (len chunks)
     /\ is_system rag_system_message = true
     /\ is_system (context_message chunks) = true
     /\ Py.get "content" "" (context_message chunks)
        = "Relevant document context:" +:+ newline +:+ newline
          +:+ Py.join (newline +:+ newline) (labelled chunks)
     /\ length (labelled chunks) = length chunks
     /\ (forall i t, chunks !! i = Some t ->
           labelled chunks !! i
           = Some ("[Document Excerpt " +:+ str_of_int (Z.of_nat i + 1) +:+ "]"
                   +:+ newline +:+ t))
     /\ am_content stored = r_content response
     /\ md_chunks_used (am_metadata stored) = len chunks
     /\ 1 <= md_chunks_used (am_metadata stored))
  /\ (chunks = [] ->
      let messages := (history ++ [user_query user_message])%list in
      let response := generate_response encode self messages default_temperature 1024 in
      generate_for_mode encode self store conversation_id user_message history
        GROUNDED_RAG = response
      /\ r_chunks_used response = None
      /\ am_content stored = r_content response
      /\ md_chunks_used (am_metadata stored) = 0).
Proof.
  intros chunks stored. split.
  - intros Hne messages response.
    assert (Hgen : generate_for_mode encode self store conversation_id
                     user_message history GROUNDED_RAG
                   = set_chunks_used response (len chunks)).
    { unfold generate_for_mode. fold chunks.
      destruct chunks as [|t rest] eqn:E; [congruence|]. reflexivity. }
    split_and!.
    + exact Hgen.
    + apply is_system_mk_message.
    + apply is_system_mk_message.
    + unfold context_message. now rewrite content_mk_message.
    + unfold labelled, Py.enumerate. now rewrite length_map, enumerate_from_length.
    + intros i t Hi. unfold labelled, Py.enumerate.
      rewrite list_lookup_fmap, (enumerate_from_lookup _ 0 i t Hi). reflexivity.
    + subst stored. unfold _generate_and_store_response. now rewrite Hgen.
    + subst stored. unfold _generate_and_store_response. now rewrite Hgen.
    + subst stored. unfold _generate_and_store_response. rewrite Hgen. simpl.
      destruct chunks; [congruence|]. unfold len. simpl. lia.
  - intros Hnil messages response.
    assert (Hgen : generate_for_mode encode self store conversation_id
                     user_message history GROUNDED_RAG = response).
    { unfold generate_for_mode. fold chunks. now rewrite Hnil. }
    assert (Hnone : r_chunks_used response = None).
    { subst response. unfold generate_response, try_except.
      destruct (create self _ _ _ _); reflexivity. }
    split_and!; auto.
    + subst stored. unfold _generate_and_store_response. now rewrite Hgen.
    + subst stored. unfold _generate_and_store_response. now rewrite Hgen, Hnone.
Qed.

(** The theorem above on the example store: a conversation with
    documents, and one without. *)
Lemma grounded_generation_witness :
  let history := [mk_message "user" "hello"] in
  (retrieve_relevant_chunks demo_store demo_id "refund policy" 3 <> []
   /\ md_chunks_used
        (am_metadata
           (_generate_and_store_response char_encode demo_llm demo_store demo_id
              "refund policy" history 2 GROUNDED_RAG))
      = len (retrieve_relevant_chunks demo_store demo_id "refund policy" 3))
  /\ (retrieve_relevant_chunks demo_store empty_id "refund policy" 3 = []
      /\ md_chunks_used
           (am_metadata
              (_generate_and_store_response char_encode demo_llm demo_store
                 empty_id "refund policy" history 2 GROUNDED_RAG))
         = 0).
Proof.
  intros history.
  assert (H1 : retrieve_relevant_chunks demo_store demo_id "refund policy" 3 <> [])
    by (vm_compute; discriminate).
  assert (H2 : retrieve_relevant_chunks demo_store empty_id "refund policy" 3 = [])
    by (vm_compute; reflexivity).
  split; (split; [assumption|]).
  - pose proof (proj1 (grounded_generation char_encode demo_llm demo_store demo_id
                         "refund policy" history 2) H1) as H.
    exact (proj1 (proj2 (proj2 (proj2 (proj2 (proj2 (proj2 (proj2 H)))))))).
  - pose proof (proj2 (grounded_generation char_encode demo_llm demo_store empty_id
                         "refund policy" history 2) H2) as H.
    exact (proj2 (proj2 (proj2 H))).
Defined.

Example grounded_demo :
  let stored := _generate_and_store_response char_encode demo_llm demo_store
                  demo_id "refund policy" [mk_message "user" "hello"] 2
                  GROUNDED_RAG in
  am_content stored = "4" /\ md_chunks_used (am_metadata stored) = 3.
Proof. vm_compute. split; reflexivity. Qed.

(** * Further properties of the token accountant *)

Section TruncationFacts.

Variable encode : string -> list Z.

Lemma single_counts_app l1 l2 :
  single_counts encode (l1 ++ l2)
  = single_counts encode l1 + single_counts encode l2.
Proof. unfold single_counts. now rewrite map_app, sum_Z_app. Qed.

Lemma single_counts_reverse l :
  single_counts encode (reverse l) = single_counts encode l.
Proof.
  induction l as [|m l IH]; [reflexivity|].
  rewrite reverse_cons, single_counts_app, IH. unfold single_counts. simpl. lia.
Qed.

Lemma single_counts_cost l :
  single_counts encode l
  = sum_Z (map (message_cost encode) l) + 2 * len l.
Proof.
  unfold single_counts, len. induction l as [|m l IH]; [reflexivity|].
  cbn [map sum_Z foldr length]. unfold sum_Z in IH. rewrite IH.
  rewrite count_message_tokens_single. lia.
Qed.

(** The backwards walk takes a prefix of the reversed list: it stops at
    the first message that does not fit and looks no further. *)
Lemma take_recent_walk remaining reversed current result :
  current <= remaining ->
  exists j,
    (j <= length reversed)%nat
    /\ take_recent encode remaining current reversed result
       = (reverse (take j reversed) ++ result)%list
    /\ current + single_counts encode (take j reversed) <= remaining
    /\ forall m, reversed !! j = Some m ->
         remaining < current + single_counts encode (take j reversed)
                     + count_message_tokens encode [m].
Proof.
  revert current result.
  induction reversed as [|m rest IH]; intros current result Hle.
  - exists 0%nat. simpl. split_and!; [lia | reflexivity | unfold single_counts; simpl; lia |].
    intros m Hm. discriminate.
  - simpl.
    destruct (Z.leb_spec (current + count_message_tokens encode [m]) remaining)
      as [Hfit|Hover].
    + destruct (IH _ (m :: result) Hfit) as (j & Hj & Heq & Hsum & Hstop).
      exists (S j). split_and!.
      * simpl. lia.
      * rewrite Heq. cbn [take]. rewrite reverse_cons, <- app_assoc. reflexivity.
      * cbn [take]. change (m :: take j rest) with ([m] ++ take j rest)%list.
        rewrite single_counts_app. unfold single_counts at 1. simpl. lia.
      * intros m' Hm'. cbn [take].
        change (m :: take j rest) with ([m] ++ take j rest)%list.
        rewrite single_counts_app. unfold single_counts at 1. simpl.
        specialize (Hstop m' Hm'). lia.
    + exists 0%nat. split_and!; [lia | reflexivity | unfold single_counts; simpl; lia |].
      intros m' [= <-]. unfold single_counts. simpl. lia.
Qed.

(** The same walk read on the list in its original order. *)
Lemma take_recent_suffix remaining others :
  0 <= remaining ->
  exists n,
    (n <= length others)%nat
    /\ take_recent encode remaining 0 (rev others) [] = drop n others
    /\ single_counts encode (drop n others) <= remaining
    /\ forall m, (0 < n)%nat -> others !! (n - 1)%nat = Some m ->
         remaining < single_counts encode (drop n others)
                     + count_message_tokens encode [m].
Proof.
  intros Hrem. rewrite rev_alt. fold (reverse others).
  destruct (take_recent_walk remaining (reverse others) 0 [] Hrem)
    as (j & Hj & Heq & Hsum & Hstop).
  rewrite length_reverse in Hj.
  exists (length others - j)%nat.
  assert (Htake : take j (reverse others)
                  = reverse (drop (length others - j) others))
    by apply take_reverse.
  rewrite Htake in *. rewrite reverse_involutive, app_nil_r in Heq.
  rewrite single_counts_reverse in Hsum, Hstop.
  split_and!; [lia | exact Heq | lia |].
  intros m Hn Hm. specialize (Hstop m). rewrite Z.add_0_l in Hstop.
  apply Hstop. apply reverse_lookup_Some. split; [|lia].
  rewrite <- Hm. f_equal. lia.
Qed.

End TruncationFacts.

(** X1. Token counts compose: the count of a concatenation is the sum of
    the counts less the conversation constant counted twice, and every
    message costs at least 4 tokens on top of the constant 2. *)
Theorem count_message_tokens_concat (encode : string -> list Z)
    (l1 l2 : list message) :
  count_message_tokens encode (l1 ++ l2)
  = count_message_tokens encode l1 + count_message_tokens encode l2 - 2
  /\ 2 + 4 * len l1 <= count_message_tokens encode l1.
Proof.
  split.
  - rewrite count_message_tokens_app, (count_message_tokens_cost encode l2). lia.
  - rewrite count_message_tokens_cost. unfold len.
    induction l1 as [|m l IH]; simpl; [lia|].
    pose proof (message_cost_ge encode m). lia.
Qed.

Lemma truncate_messages_suffix (encode : string -> list Z)
    (messages : list message) (max_tokens : Z) :
  messages <> [] ->
  let remaining := max_tokens - count_message_tokens encode (system_of messages) in
  0 < remaining ->
  exists n,
    (n <= length (others_of messages))%nat
    /\ truncate_messages encode messages max_tokens true
       = (system_of messages ++ drop n (others_of messages))%list
    /\ single_counts encode (drop n (others_of messages)) <= remaining
    /\ forall m, (0 < n)%nat -> others_of messages !! (n - 1)%nat = Some m ->
         remaining < single_counts encode (drop n (others_of messages))
                     + count_message_tokens encode [m].
Proof.
  intros Hne remaining Hrem. unfold truncate_messages.
  destruct messages as [|m0 ms]; [congruence|].
  fold remaining. destruct (Z.leb_spec remaining 0); [lia|].
  destruct (take_recent_suffix encode remaining (others_of (m0 :: ms)))
    as (n & Hn & Heq & Hsum & Hstop); [lia|].
  exists n. rewrite Heq. auto.
Qed.

(** X2. Truncation with system messages kept and room left after them:
    the result is all system messages followed by a suffix of the other
    messages in their original order. The suffix fits in what remains
    when each of its messages is charged as a conversation of its own,
    and the message just before the suffix, if any, would not fit: the
    walk stops there and tries no older message. *)
Theorem truncate_messages_recency (encode : string -> list Z)
    (messages : list message) (max_tokens : Z) :
  messages <> [] ->
  let remaining := max_tokens - count_message_tokens encode (system_of messages) in
  0 < remaining ->
  exists n,
    (n <= length (others_of messages))%nat
    /\ truncate_messages encode messages max_tokens true
       = (system_of messages ++ drop n (others_of messages))%list
    /\ single_counts encode (drop n (others_of messages)) <= remaining
    /\ forall m, (0 < n)%nat -> others_of messages !! (n - 1)%nat = Some m ->
         remaining < single_counts encode (drop n (others_of messages))
                     + count_message_tokens encode [m].
Proof. apply truncate_messages_suffix. Qed.

Lemma truncate_messages_recency_witness :
  let messages := [mk_message "system" "a"; mk_message "user" "bb";
                   mk_message "assistant" "c"; mk_message "user" "d"] in
  messages <> []
  /\ 0 < 40 - count_message_tokens char_encode (system_of messages)
  /\ exists n,
       (n <= length (others_of messages))%nat
       /\ truncate_messages char_encode messages 40 true
          = (system_of messages ++ drop n (others_of messages))%list.
Proof.
  intros messages.
  assert (H1 : messages <> []) by discriminate.
  assert (H2 : 0 < 40 - count_message_tokens char_encode (system_of messages))
    by (vm_compute; reflexivity).
  split; [exact H1 | split; [exact H2|]].
  destruct (truncate_messages_recency char_encode messages 40 H1 H2)
    as (n & Hn & Heq & _).
  exists n. split; [exact Hn | exact Heq].
Defined.

(** X3. Truncation without the system privilege ([keep_system = False]):
    the result is a suffix of the whole list, system messages are dropped
    like any other, and the suffix charged message by message fits in
    [max_tokens - 2]; with [max_tokens <= 2] nothing is kept. *)
Theorem truncate_messages_no_system (encode : string -> list Z)
    (messages : list message) (max_tokens : Z) :
  exists n,
    (n <= length messages)%nat
    /\ truncate_messages encode messages max_tokens false = drop n messages
    /\ (max_tokens <= 2 -> n = length messages)
    /\ (2 < max_tokens ->
        single_counts encode (drop n messages) <= max_tokens - 2
        /\ forall m, (0 < n)%nat -> messages !! (n - 1)%nat = Some m ->
             max_tokens - 2 < single_counts encode (drop n messages)
                              + count_message_tokens encode [m]).
Proof.
  unfold truncate_messages. destruct messages as [|m0 ms].
  - exists 0%nat. split_and!; auto.
    intros H. split; [unfold single_counts; simpl; lia|]. intros m Hn. lia.
  - change (count_message_tokens encode []) with 2.
    destruct (Z.leb_spec (max_tokens - 2) 0) as [Hle|Hgt].
    + exists (length (m0 :: ms)). split_and!; [lia | | auto | intros; lia].
      rewrite drop_all. unfold Py.slice. now rewrite drop_nil, take_nil.
    + destruct (take_recent_suffix encode (max_tokens - 2) (m0 :: ms))
        as (n & Hn & Heq & Hsum & Hstop); [lia|].
      exists n. rewrite Heq. split_and!; auto. lia.
Qed.

Lemma truncate_messages_no_system_witness :
  let messages := [mk_message "system" "a"; mk_message "user" "b"] in
  2 < 12
  /\ exists n,
       truncate_messages char_encode messages 12 false = drop n messages
       /\ single_counts char_encode (drop n messages) <= 12 - 2.
Proof.
  intros messages.
  assert (H : 2 < 12) by lia.
  split; [exact H|].
  destruct (truncate_messages_no_system char_encode messages 12)
    as (n & _ & Heq & _ & Hfit).
  exists n. split; [exact Heq | exact (proj1 (Hfit H))].
Defined.

(** * Further properties of the context manager *)

Lemma others_of_app l1 l2 : others_of (l1 ++ l2) = (others_of l1 ++ others_of l2)%list.
Proof. apply List.filter_app. Qed.

Lemma system_is_system l : Forall (fun m => is_system m = true) (system_of l).
Proof.
  unfold system_of. apply List.Forall_forall. intros m Hin.
  now apply List.filter_In in Hin.
Qed.

Lemma others_of_all l :
  Forall (fun m => is_system m = false) l -> others_of l = l.
Proof.
  unfold others_of. induction 1 as [|m l Hm _ IH]; simpl; [reflexivity|].
  now rewrite Hm, IH.
Qed.

Lemma others_of_none l :
  Forall (fun m => is_system m = true) l -> others_of l = [].
Proof.
  unfold others_of. induction 1 as [|m l Hm _ IH]; simpl; [reflexivity|].
  now rewrite Hm.
Qed.

Lemma system_of_all l :
  Forall (fun m => is_system m = true) l -> system_of l = l.
Proof.
  unfold system_of. induction 1 as [|m l Hm _ IH]; simpl; [reflexivity|].
  now rewrite Hm, IH.
Qed.

Lemma partition_length l :
  length l = (length (system_of l) + length (others_of l))%nat.
Proof.
  unfold system_of, others_of. induction l as [|m l IH]; simpl; [reflexivity|].
  destruct (is_system m); simpl; lia.
Qed.

(** The parts of a list made of a prefix of system messages and a suffix
    of other messages. *)
Lemma parts_of_mix l k n :
  system_of (take k (system_of l) ++ drop n (others_of l)) = take k (system_of l)
  /\ others_of (take k (system_of l) ++ drop n (others_of l)) = drop n (others_of l).
Proof.
  rewrite system_of_app, others_of_app.
  rewrite (system_of_all (take _ _)) by apply Forall_take, system_is_system.
  rewrite (others_of_none (take _ _)) by apply Forall_take, system_is_system.
  rewrite (system_of_none (drop _ _)) by apply Forall_drop, others_not_system.
  rewrite (others_of_all (drop _ _)) by apply Forall_drop, others_not_system.
  now rewrite app_nil_r.
Qed.

(** The window is the input, or its system messages and a suffix of the
    others. *)
Lemma sliding_window_shape max_history messages :
  sliding_window max_history messages = messages
  \/ exists n, sliding_window max_history messages
               = (system_of messages ++ drop n (others_of messages))%list.
Proof.
  unfold sliding_window. destruct (_ >? _); [|now left].
  right. rewrite slice_from_drop. eauto.
Qed.

(** The token budget returns its input, or a prefix of its system messages
    and a suffix of the others, within the budget unless it is a single
    system message or nothing. *)
Lemma token_budget_shape encode max_tokens messages :
  token_budget encode max_tokens messages = messages
  \/ exists k n,
       token_budget encode max_tokens messages
       = (take k (system_of messages) ++ drop n (others_of messages))%list.
Proof.
  unfold token_budget. destruct (_ >? _); [|now left]. right.
  destruct (list_eq_dec messages []) as [->|Hne].
  { exists 0%nat, 0%nat. reflexivity. }
  destruct (truncate_messages_cases encode messages max_tokens Hne)
    as [[_ Heq]|[Hrem _]].
  - exists 1%nat, (length (others_of messages)). rewrite Heq, drop_all.
    now rewrite app_nil_r.
  - destruct (truncate_messages_suffix encode messages max_tokens Hne Hrem)
      as (n & _ & Heq & _).
    exists (length (system_of messages)), n. now rewrite Heq, firstn_all.
Qed.

Lemma token_budget_result encode max_tokens messages :
  let out := token_budget encode max_tokens messages in
  count_message_tokens encode out <= max_tokens
  \/ (exists s, out = [s] /\ is_system s = true)
  \/ out = [].
Proof.
  intros out. subst out. unfold token_budget.
  destruct (Z.gtb_spec (count_message_tokens encode messages) max_tokens);
    [|left; lia].
  destruct (list_eq_dec messages []) as [->|Hne]; [now right; right|].
  destruct (truncate_messages_cases encode messages max_tokens Hne)
    as [[_ Heq]|[Hrem (added & Heq & Hsum)]]; rewrite Heq.
  - destruct (system_of messages) as [|s rest] eqn:Es; [now right; right|].
    right. left. exists s. split; [reflexivity|].
    eapply system_of_head_is_system; eauto.
  - left. rewrite count_message_tokens_app. lia.
Qed.

Lemma token_budget_fixed encode max_tokens messages :
  token_budget encode max_tokens (token_budget encode max_tokens messages)
  = token_budget encode max_tokens messages.
Proof.
  destruct (token_budget_result encode max_tokens messages)
    as [Hfit | [(s & Heq & Hs) | Heq]].
  - unfold token_budget at 1.
    destruct (Z.gtb_spec (count_message_tokens encode
                            (token_budget encode max_tokens messages)) max_tokens);
      [lia | reflexivity].
  - rewrite Heq. unfold token_budget.
    destruct (Z.gtb_spec (count_message_tokens encode [s]) max_tokens);
      [|reflexivity].
    unfold truncate_messages, system_of. simpl. rewrite Hs.
    destruct (Z.leb_spec (max_tokens - count_message_tokens encode [s]) 0); [|lia].
    now rewrite slice_first.
  - rewrite Heq. unfold token_budget. now destruct (_ >? _).
Qed.

Lemma others_of_sliding_window max_history messages :
  exists a, others_of (sliding_window max_history messages)
            = drop a (others_of messages).
Proof.
  destruct (sliding_window_shape max_history messages) as [->|(n & ->)].
  - now exists 0%nat.
  - exists n. rewrite <- (firstn_all (system_of messages)).
    apply parts_of_mix.
Qed.

Lemma token_budget_length encode max_tokens messages :
  (length (token_budget encode max_tokens messages) <= length messages)%nat.
Proof.
  destruct (token_budget_shape encode max_tokens messages) as [->|(k & n & ->)];
    [lia|].
  rewrite length_app, length_take, length_drop, (partition_length messages). lia.
Qed.

Lemma sliding_window_length max_history messages :
  len (system_of messages) < max_history \/ len messages <= max_history ->
  len (sliding_window max_history messages) <= max_history.
Proof.
  intros H.
  destruct (Z.le_gt_cases (len messages) max_history) as [Hle|Hgt].
  - unfold sliding_window, len in *.
    destruct (Z.gtb_spec (Z.of_nat (length messages)) max_history); [lia|]. lia.
  - destruct H as [Hsys|?]; [|lia].
    rewrite sliding_window_positive by lia.
    unfold len in *. rewrite length_app, length_drop. lia.
Qed.

(** X4. The token budget is idempotent: what it returns needs no further
    truncation, also when that is a single oversized system message. *)
Theorem token_budget_idempotent (encode : string -> list Z) (max_tokens : Z)
    (messages : list message) :
  token_budget encode max_tokens (token_budget encode max_tokens messages)
  = token_budget encode max_tokens messages.
Proof. apply token_budget_fixed. Qed.

(** X5. Context management neither invents nor reorders within a role
    class: the system messages of its output are a prefix of the system
    messages of the input, the other messages of its output are a suffix
    (the most recent ones) of the other messages of the input, and the
    output is not longer than the input. *)
Theorem manage_context_order (encode : string -> list Z)
    (max_history max_tokens : Z) (messages : list message) :
  let out := _manage_context encode max_history max_tokens messages in
  (exists k n, system_of out = take k (system_of messages)
               /\ others_of out = drop n (others_of messages))
  /\ (forall m, In m out -> In m messages)
  /\ (length out <= length messages)%nat.
Proof.
  intros out. subst out. unfold _manage_context.
  set (w := sliding_window max_history messages).
  pose proof (system_of_sliding_window max_history messages) as Hsys.
  destruct (others_of_sliding_window max_history messages) as (a & Hoth).
  fold w in Hsys, Hoth.
  assert (Hparts : exists k n,
            system_of (token_budget encode max_tokens w) = take k (system_of messages)
            /\ others_of (token_budget encode max_tokens w)
               = drop n (others_of messages)).
  { destruct (token_budget_shape encode max_tokens w) as [->|(k & n & ->)].
    - exists (length (system_of messages)), a. now rewrite firstn_all.
    - exists k, (a + n)%nat.
      destruct (parts_of_mix w k n) as [-> ->].
      now rewrite Hsys, Hoth, drop_drop. }
  destruct Hparts as (k & n & Hs & Ho). split_and!.
  - eauto.
  - intros m Hm.
    destruct (is_system m) eqn:E.
    + assert (Hin : In m (system_of (token_budget encode max_tokens w)))
        by (apply List.filter_In; auto).
      rewrite Hs in Hin. apply list_elem_of_In, (subseteq_take k) in Hin.
      apply list_elem_of_In, List.filter_In in Hin. tauto.
    + assert (Hin : In m (others_of (token_budget encode max_tokens w)))
        by (apply List.filter_In; rewrite E; auto).
      rewrite Ho in Hin. apply list_elem_of_In, (subseteq_drop n) in Hin.
      apply list_elem_of_In, List.filter_In in Hin. tauto.
  - rewrite (partition_length (token_budget _ _ _)), Hs, Ho.
    rewrite length_take, length_drop, (partition_length messages). lia.
Qed.

(** X6. The sliding window leaves a history within the cap unchanged, and
    with fewer than [max_history] system messages its result has at most
    [max_history] messages. *)
Theorem sliding_window_bound (max_history : Z) (messages : list message) :
  (len messages <= max_history -> sliding_window max_history messages = messages)
  /\ (len (system_of messages) < max_history ->
      len (sliding_window max_history messages) <= max_history).
Proof.
  split.
  - intros Hle. unfold sliding_window, len in *.
    destruct (Z.gtb_spec (Z.of_nat (length messages)) max_history); [lia|].
    reflexivity.
  - intros Hsys. apply sliding_window_length. now left.
Qed.

Lemma sliding_window_bound_witness :
  let messages := [mk_message "system" "a"; mk_message "user" "b";
                   mk_message "assistant" "c"; mk_message "user" "d"] in
  len (system_of messages) < 3
  /\ len (sliding_window 3 messages) <= 3.
Proof.
  intros messages.
  assert (H : len (system_of messages) < 3) by (vm_compute; reflexivity).
  split; [exact H|].
  exact (proj2 (sliding_window_bound 3 messages) H).
Defined.

(** X7. Context management is idempotent as soon as the history is within
    the cap or holds fewer than [max_history] system messages: managing a
    managed context changes nothing. *)
Theorem manage_context_idempotent (encode : string -> list Z)
    (max_history max_tokens : Z) (messages : list message) :
  len (system_of messages) < max_history \/ len messages <= max_history ->
  _manage_context encode max_history max_tokens
    (_manage_context encode max_history max_tokens messages)
  = _manage_context encode max_history max_tokens messages.
Proof.
  intros H. unfold _manage_context.
  set (w := sliding_window max_history messages).
  assert (Hlen : len (token_budget encode max_tokens w) <= max_history).
  { pose proof (sliding_window_length max_history messages H) as Hw.
    pose proof (token_budget_length encode max_tokens w) as Hout.
    fold w in Hw. unfold len in *. lia. }
  assert (Hwin : sliding_window max_history (token_budget encode max_tokens w)
                 = token_budget encode max_tokens w).
  { unfold sliding_window, len in *.
    destruct (Z.gtb_spec (Z.of_nat (length (token_budget encode max_tokens w)))
                max_history); [lia | reflexivity]. }
  rewrite Hwin. apply token_budget_fixed.
Qed.

Lemma manage_context_idempotent_witness :
  let messages := [mk_message "system" "a"; mk_message "user" "b";
                   mk_message "assistant" "c"; mk_message "user" "d"] in
  (len (system_of messages) < 3 \/ len messages <= 3)
  /\ _manage_context char_encode 3 30
       (_manage_context char_encode 3 30 messages)
     = _manage_context char_encode 3 30 messages.
Proof.
  intros messages.
  assert (H : len (system_of messages) < 3 \/ len messages <= 3)
    by (left; vm_compute; reflexivity).
  split; [exact H|].
  exact (manage_context_idempotent char_encode 3 30 messages H).
Defined.

(** * Further properties of the chunker *)

Lemma str_of_int_inj (i j : Z) : str_of_int i = str_of_int j -> i = j.
Proof.
  unfold str_of_int. intros H. apply DecimalZ.to_int_inj.
  assert (Hok : forall z, Z.to_int z <> Decimal.Pos Decimal.Nil
                          /\ Z.to_int z <> Decimal.Neg Decimal.Nil).
  { intros [|p|p]; simpl; split; try discriminate;
      intros [= Hp]; now apply DecimalPos.Unsigned.to_uint_nonnil in Hp. }
  assert (Hs : Some (Z.to_int i) = Some (Z.to_int j)).
  { rewrite <- (NilZero.isi (Z.to_int i)), <- (NilZero.isi (Z.to_int j));
      try apply Hok. now rewrite H. }
  now injection Hs.
Qed.

Section ChunkIds.

Variable words : list string.
Variables chunk_size overlap : Z.

(** Whatever holds of every window holds of every chunk returned. *)
Lemma chunk_loop_all (P : chunk -> Prop) fuel chunks chunk_index start r :
  (forall i s, P (window_chunk words chunk_size i s)) ->
  Forall P chunks ->
  chunk_loop fuel words chunk_size overlap chunks chunk_index start = Some r ->
  Forall P r.
Proof.
  intros HP. revert chunks chunk_index start.
  induction fuel as [|fuel IH]; intros chunks chunk_index start Hacc; simpl;
    destruct (start <? len words); try discriminate;
    try (intros [= <-]; exact Hacc).
  apply IH. apply Forall_app. split; [exact Hacc|]. constructor; [apply HP|constructor].
Qed.

(** The loop numbers its chunks from [chunk_index] on. *)
Lemma chunk_loop_ids fuel chunk_index start r :
  chunk_loop fuel words chunk_size overlap [] chunk_index start = Some r ->
  forall i c, r !! i = Some c ->
    chunk_id c = "chunk_" +:+ str_of_int (chunk_index + Z.of_nat i).
Proof.
  revert chunk_index start r.
  induction fuel as [|fuel IH]; intros chunk_index start r.
  - simpl. destruct (start <? len words); [discriminate|].
    intros [= <-] i c Hi. destruct i; discriminate.
  - destruct (Z.ltb_spec start (len words)) as [Hlt|Hge].
    + rewrite chunk_loop_step by exact Hlt.
      destruct (chunk_loop fuel words chunk_size overlap [] (chunk_index + 1) _)
        as [rest|] eqn:E; [|discriminate].
      simpl. intros [= <-] [|i] c Hi.
      * injection Hi as <-. simpl. now rewrite Z.add_0_r.
      * simpl in Hi. rewrite (IH _ _ _ E i c Hi). do 2 f_equal. lia.
    + rewrite chunk_loop_done by exact Hge.
      intros [= <-] i c Hi. destruct i; discriminate.
Qed.

(** A loop that is entered returns at least one chunk. *)
Lemma chunk_loop_nonempty fuel chunk_index start r :
  start < len words ->
  chunk_loop fuel words chunk_size overlap [] chunk_index start = Some r ->
  r <> [].
Proof.
  intros Hlt. destruct fuel as [|fuel].
  - simpl. destruct (Z.ltb_spec start (len words)); [discriminate | lia].
  - rewrite chunk_loop_step by exact Hlt.
    destruct (chunk_loop fuel _ _ _ _ _ _); [|discriminate].
    simpl. intros [= <-]. discriminate.
Qed.

(** Positions along a chain of windows. *)
Lemma window_chain_positions start r i c :
  window_chain words chunk_size overlap start r ->
  r !! i = Some c ->
  start_word c = start + Z.of_nat i * (chunk_size - overlap)
  /\ end_word c = Z.min (start_word c + chunk_size) (len words)
  /\ (r !! S i = None -> end_word c = len words)
  /\ (is_Some (r !! S i) -> 0 <= start_word c -> 0 <= chunk_size ->
      word_count c = chunk_size).
Proof.
  intros Hchain. revert i.
  induction Hchain as [s k Hs Hn | s k rest Hs Hrest IH]; intros i Hc.
  - destruct i; [|discriminate]. injection Hc as <-. simpl.
    unfold window_end. split_and!; try lia.
    intros [x Hx]. discriminate.
  - destruct i as [|i].
    + injection Hc as <-. simpl. unfold window_end. split_and!; try lia.
      * intros Hnone. destruct (window_chain_head _ _ _ _ _ Hrest)
          as (d & rest' & -> & _). discriminate.
      * intros _ Hpos Hcs. rewrite Z.min_l by lia. rewrite slice_window by lia.
        unfold len in *. rewrite length_take, length_drop. lia.
    + simpl in Hc. destruct (IH i Hc) as (H1 & H2 & H3 & H4).
      split_and!; auto. lia.
Qed.

End ChunkIds.

(** ** Words *)

Lemma append_cons a (s t : string) : String a s +:+ t = String a (s +:+ t).
Proof. reflexivity. Qed.

Lemma append_empty_r (s : string) : s +:+ "" = s.
Proof. induction s as [|a s IH]; [reflexivity|]. now rewrite append_cons, IH. Qed.

Lemma append_assoc (s t u : string) : (s +:+ t) +:+ u = s +:+ (t +:+ u).
Proof. induction s as [|a s IH]; [reflexivity|]. now rewrite !append_cons, IH. Qed.

Lemma append_not_empty (s : string) a : s +:+ String a "" <> "".
Proof. destruct s; discriminate. Qed.

Lemma no_space_append (s t : string) :
  no_space (s +:+ t) = no_space s && no_space t.
Proof.
  induction s as [|a s IH]; [reflexivity|].
  rewrite append_cons. simpl. rewrite IH. now rewrite andb_assoc.
Qed.

(** [split] only produces words. *)
Lemma split_from_words word s :
  no_space word = true -> Forall is_word (split_from word s).
Proof.
  revert word. induction s as [|a s IH]; intros word Hw; simpl.
  - case_bool_decide; constructor; [split; assumption | constructor].
  - destruct (is_space a) eqn:Ea.
    + case_bool_decide; [now apply IH|].
      constructor; [split; assumption | now apply IH].
    + apply IH. rewrite no_space_append, Hw. simpl. now rewrite Ea.
Qed.

Lemma split_words s : Forall is_word (split s).
Proof. now apply split_from_words. Qed.

(** Reading a word extends the run read so far. *)
Lemma split_from_word word v s :
  no_space v = true -> split_from word (v +:+ s) = split_from (word +:+ v) s.
Proof.
  revert word. induction v as [|a v IH]; intros word Hv.
  - now rewrite append_empty_r.
  - simpl in Hv. apply andb_true_iff in Hv as [Ha Hv].
    rewrite append_cons. simpl. apply negb_true_iff in Ha. rewrite Ha.
    rewrite IH by exact Hv. now rewrite append_assoc.
Qed.

Lemma split_from_space word s :
  word <> "" -> split_from word (String " " s) = word :: split_from "" s.
Proof. intros Hne. simpl. now rewrite bool_decide_eq_false_2. Qed.

(** Joining words with one space and splitting again gives the words. *)
Lemma split_join ws : Forall is_word ws -> split (Py.join " " ws) = ws.
Proof.
  unfold split. induction 1 as [|w ws [Hne Hw] Hws IH]; [reflexivity|].
  destruct ws as [|v ws].
  - simpl. rewrite <- (append_empty_r w) at 1.
    rewrite split_from_word by exact Hw. simpl.
    now rewrite bool_decide_eq_false_2.
  - change (Py.join " " (w :: v :: ws))
      with (w +:+ String " " (Py.join " " (v :: ws))).
    rewrite split_from_word by exact Hw.
    change ("" +:+ w) with w. rewrite split_from_space by exact Hne.
    now rewrite IH.
Qed.

Lemma slice_Forall {A : Type} (P : A -> Prop) (l : list A) start stop :
  Forall P l -> Forall P (Py.slice l start stop).
Proof. intros H. unfold Py.slice. now apply Forall_take, Forall_drop. Qed.

(** ** Chunks *)

(** A run of the chunker on more than [chunk_size] words with a valid
    overlap is the chain of windows from position 0. *)
Lemma chunk_text_chain fuel txt chunk_size overlap chunks :
  0 <= overlap < chunk_size ->
  chunk_size < len (split txt) ->
  chunk_text fuel txt chunk_size overlap = Some chunks ->
  window_chain (split txt) chunk_size overlap 0 chunks.
Proof.
  intros Hov Hwords Hrun. unfold chunk_text in Hrun.
  destruct (Z.leb_spec (len (split txt)) chunk_size); [lia|].
  destruct (chunk_loop_chain (split txt) chunk_size overlap
              (fuel + length (split txt)) 0 0 Hov)
    as (r & Hr & Hchain); [lia | unfold len; lia |].
  rewrite (chunk_loop_more_fuel _ _ _ _ _ _ _ _ _ Hrun) in Hr by lia.
  now injection Hr as <-.
Qed.

Lemma chunk_text_all (P : chunk -> Prop) fuel txt chunk_size overlap chunks :
  (forall i s, P (window_chunk (split txt) chunk_size i s)) ->
  P {| chunk_id := "chunk_0"; text := txt; start_word := 0;
       end_word := len (split txt); word_count := len (split txt) |} ->
  chunk_text fuel txt chunk_size overlap = Some chunks ->
  Forall P chunks.
Proof.
  intros Hwin Hone. unfold chunk_text. destruct (_ <=? _).
  - intros [= <-]. constructor; [exact Hone | constructor].
  - apply chunk_loop_all; [exact Hwin | constructor].
Qed.



(** X9. Chunk identifiers are [chunk_0], [chunk_1], ... in emission order,
    hence distinct within a document. *)
Theorem chunk_text_ids (fuel : nat) (txt : string) (chunk_size overlap : Z)
    (chunks : list chunk) :
  chunk_text fuel txt chunk_size overlap = Some chunks ->
  (forall i c, chunks !! i = Some c ->
     chunk_id c = "chunk_" +:+ str_of_int (Z.of_nat i))
  /\ NoDup (map chunk_id chunks).
Proof.
  intros Hrun.
  assert (Hids : forall i c, chunks !! i = Some c ->
                   chunk_id c = "chunk_" +:+ str_of_int (Z.of_nat i)).
  { unfold chunk_text in Hrun. destruct (_ <=? _).
    - injection Hrun as <-. intros [|i] c Hi; [|destruct i; discriminate].
      now injection Hi as <-.
    - intros i c Hi. now rewrite (chunk_loop_ids _ _ _ _ _ _ _ Hrun i c Hi). }
  split; [exact Hids|].
  apply NoDup_alt. intros i j x Hi Hj.
  apply list_lookup_fmap_Some in Hi as (c & -> & Hc).
  apply list_lookup_fmap_Some in Hj as (d & Hd' & Hd).
  rewrite (Hids i c Hc), (Hids j d Hd) in Hd'.
  apply (inj (String.append "chunk_")) in Hd'.
  apply str_of_int_inj in Hd'. lia.
Qed.

Lemma chunk_text_ids_witness :
  chunk_text 7 "a b c d e f g" 3 1 <> None
  /\ exists chunks, chunk_text 7 "a b c d e f g" 3 1 = Some chunks
                    /\ NoDup (map chunk_id chunks).
Proof.
  destruct (chunk_text 7 "a b c d e f g" 3 1) as [chunks|] eqn:E;
    [|vm_compute in E; discriminate E].
  split; [discriminate|].
  exists chunks. split; [reflexivity|].
  exact (proj2 (chunk_text_ids 7 "a b c d e f g" 3 1 chunks E)).
Defined.

(** X10. With [0 <= overlap < chunk_size] and more than [chunk_size]
    words, chunk [i] starts at word [i * (chunk_size - overlap)], ends
    [chunk_size] words later or at the last word, every chunk but the
    last has exactly [chunk_size] words, and the last chunk ends with the
    text. *)
Theorem chunk_text_positions (fuel : nat) (txt : string)
    (chunk_size overlap : Z) (chunks : list chunk) :
  0 <= overlap < chunk_size ->
  chunk_size < len (split txt) ->
  chunk_text fuel txt chunk_size overlap = Some chunks ->
  forall i c, chunks !! i = Some c ->
    start_word c = Z.of_nat i * (chunk_size - overlap)
    /\ end_word c = Z.min (start_word c + chunk_size) (len (split txt))
    /\ (chunks !! S i = None -> end_word c = len (split txt))
    /\ (is_Some (chunks !! S i) -> word_count c = chunk_size).
Proof.
  intros Hov Hwords Hrun i c Hi.
  pose proof (chunk_text_chain _ _ _ _ _ Hov Hwords Hrun) as Hchain.
  destruct (window_chain_positions _ _ _ _ _ _ _ Hchain Hi) as (H1 & H2 & H3 & H4).
  split_and!.
  - lia.
  - exact H2.
  - exact H3.
  - intros Hnext. apply H4; [exact Hnext | | lia].
    rewrite H1. nia.
Qed.

Lemma chunk_text_positions_witness :
  0 <= 1 < 3 /\ 3 < len (split "a b c d e f g")
  /\ exists chunks c,
       chunk_text 7 "a b c d e f g" 3 1 = Some chunks
       /\ chunks !! 2%nat = Some c
       /\ start_word c = 2 * (3 - 1).
Proof.
  assert (H1 : 0 <= 1 < 3) by lia.
  assert (H2 : 3 < len (split "a b c d e f g")) by (vm_compute; reflexivity).
  split; [exact H1 | split; [exact H2|]].
  destruct (chunk_text 7 "a b c d e f g" 3 1) as [chunks|] eqn:E;
    [|vm_compute in E; discriminate E].
  destruct (chunks !! 2%nat) as [c|] eqn:Ec;
    [|vm_compute in E; injection E as <-; discriminate Ec].
  exists chunks, c. split; [reflexivity | split; [exact Ec|]].
  exact (proj1 (chunk_text_positions 7 "a b c d e f g" 3 1 chunks H1 H2 E
                  2%nat c Ec)).
Defined.

(** X11. Splitting the text of a returned chunk gives back the words of
    its range: exactly [word_count] words, the slice of the words of the
    document between [start_word] and [end_word]. *)
Theorem chunk_text_resplit (fuel : nat) (txt : string) (chunk_size overlap : Z)
    (chunks : list chunk) :
  chunk_text fuel txt chunk_size overlap = Some chunks ->
  Forall (fun c =>
            split (text c)
            = Py.slice (split txt) (Some (start_word c)) (Some (end_word c))
            /\ len (split (text c)) = word_count c) chunks.
Proof.
  apply chunk_text_all.
  - intros i s. unfold window_chunk. simpl.
    rewrite split_join by apply slice_Forall, split_words. auto.
  - simpl. split; [|reflexivity].
    rewrite slice_window by (unfold len; lia).
    rewrite Z.sub_0_r. unfold len. simpl. rewrite Nat2Z.id. now rewrite firstn_all.
Qed.

Lemma chunk_text_resplit_witness :
  exists chunks,
    chunk_text 7 "a b c d e f g" 3 1 = Some chunks
    /\ Forall (fun c => len (split (text c)) = word_count c) chunks.
Proof.
  destruct (chunk_text 7 "a b c d e f g" 3 1) as [chunks|] eqn:E;
    [|vm_compute in E; discriminate E].
  exists chunks. split; [reflexivity|].
  eapply List.Forall_impl;
    [|exact (chunk_text_resplit 7 "a b c d e f g" 3 1 chunks E)].
  intros c [_ H]. exact H.
Defined.

(** X12. With a non-negative [chunk_size] chunking never returns an empty
    list: every document, the empty one included, has at least one
    chunk. *)
Theorem chunk_text_nonempty (fuel : nat) (txt : string) (chunk_size overlap : Z)
    (chunks : list chunk) :
  0 <= chunk_size ->
  chunk_text fuel txt chunk_size overlap = Some chunks ->
  chunks <> [].
Proof.
  intros Hcs. unfold chunk_text.
  destruct (Z.leb_spec (len (split txt)) chunk_size).
  - intros [= <-]. discriminate.
  - apply chunk_loop_nonempty. lia.
Qed.

Lemma chunk_text_nonempty_witness :
  0 <= 600 /\ exists chunks, chunk_text 0 "" 600 100 = Some chunks /\ chunks <> [].
Proof.
  assert (H : 0 <= 600) by lia.
  split; [exact H|].
  destruct (chunk_text 0 "" 600 100) as [chunks|] eqn:E;
    [|vm_compute in E; discriminate E].
  exists chunks. split; [reflexivity|].
  exact (chunk_text_nonempty 0 "" 600 100 chunks H E).
Defined.

(** * Further properties of the relevance scorer *)

Lemma lower_char_idempotent a : lower_char (lower_char a) = lower_char a.
Proof. destruct a as [[] [] [] [] [] [] [] []]; reflexivity. Qed.

Lemma lower_char_classes a :
  is_word_char (lower_char a) = is_word_char a
  /\ is_space (lower_char a) = is_space a.
Proof. destruct a as [[] [] [] [] [] [] [] []]; split; reflexivity. Qed.

Lemma lower_idempotent s : lower (lower s) = lower s.
Proof.
  induction s as [|a s IH]; simpl; [reflexivity|].
  now rewrite lower_char_idempotent, IH.
Qed.

Lemma strip_lower s : strip_punctuation (lower s) = lower (strip_punctuation s).
Proof.
  induction s as [|a s IH]; simpl; [reflexivity|].
  destruct (lower_char_classes a) as [-> ->].
  destruct (is_word_char a || is_space a); simpl; now rewrite IH.
Qed.

Lemma strip_idempotent s :
  strip_punctuation (strip_punctuation s) = strip_punctuation s.
Proof.
  induction s as [|a s IH]; simpl; [reflexivity|].
  destruct (is_word_char a || is_space a) eqn:E; simpl; [|exact IH].
  now rewrite E, IH.
Qed.

Lemma lower_append s t : lower (s +:+ t) = lower s +:+ lower t.
Proof.
  induction s as [|a s IH]; [reflexivity|].
  rewrite append_cons. simpl. now rewrite IH.
Qed.

Lemma strip_append s t :
  strip_punctuation (s +:+ t) = strip_punctuation s +:+ strip_punctuation t.
Proof.
  induction s as [|a s IH]; [reflexivity|].
  rewrite append_cons. simpl.
  destruct (is_word_char a || is_space a); [rewrite append_cons|]; now rewrite IH.
Qed.

(** A space ends the word being read: the words before it and the words
    after it are split independently. *)
Lemma split_from_append_space word s t :
  split_from word (s +:+ String " " t) = (split_from word s ++ split t)%list.
Proof.
  revert word. induction s as [|a s IH]; intros word.
  - change ("" +:+ String " " t) with (String " " t). simpl.
    case_bool_decide; reflexivity.
  - rewrite append_cons. simpl. destruct (is_space a).
    + case_bool_decide; now rewrite IH.
    + apply IH.
Qed.

Lemma word_set_lower s : word_set (lower s) = word_set s.
Proof. unfold word_set. now rewrite lower_idempotent. Qed.

Lemma word_set_strip s : word_set (strip_punctuation s) = word_set s.
Proof.
  unfold word_set. now rewrite <- strip_lower, strip_idempotent, strip_lower.
Qed.

Lemma word_set_append_space s t :
  word_set (s +:+ " " +:+ t) = word_set s ∪ word_set t.
Proof.
  unfold word_set.
  change (s +:+ " " +:+ t) with (s +:+ String " " t).
  rewrite lower_append, strip_append. simpl.
  unfold split. rewrite split_from_append_space.
  apply set_eq. intros w.
  rewrite elem_of_union, !elem_of_list_to_set, elem_of_app. reflexivity.
Qed.

(** X13. The score is 1 exactly when the two strings have the same
    non-empty set of normalised words. *)
Theorem relevance_score_one (q c : string) :
  Qeq (calculate_relevance_score q c) 1
  <-> word_set q = word_set c /\ word_set q <> ∅.
Proof.
  destruct (decide (word_set q = ∅)) as [Hq|Hq].
  { rewrite calculate_relevance_score_empty by auto. split; [discriminate | tauto]. }
  destruct (decide (word_set c = ∅)) as [Hc|Hc].
  { rewrite calculate_relevance_score_empty by auto.
    split; [discriminate | intros [H _]; congruence]. }
  rewrite calculate_relevance_score_nonempty by auto.
  assert (Hsub : word_set q ∩ word_set c ⊆ word_set q ∪ word_set c)
    by (intros w; rewrite elem_of_intersection, elem_of_union; tauto).
  assert (Hpos : size (word_set q ∪ word_set c) <> 0%nat).
  { apply size_word_set_pos. intros Hu. apply Hq. apply set_eq. intros w.
    split; [|now rewrite elem_of_empty].
    intros Hw. rewrite <- Hu. apply elem_of_union. now left. }
  unfold Qeq. simpl. rewrite Zpos_of_nat by exact Hpos. split.
  - intros Hsize. split; [|exact Hq].
    assert (Heq : word_set q ∩ word_set c = word_set q ∪ word_set c)
      by (apply set_subseteq_size_eq; [exact Hsub | lia]).
    apply set_eq. intros w.
    assert (Hw : w ∈ word_set q ∩ word_set c <-> w ∈ word_set q ∪ word_set c)
      by now rewrite Heq.
    rewrite elem_of_intersection, elem_of_union in Hw. tauto.
  - intros [Heq _]. rewrite <- Heq.
    assert (Hi : word_set q ∩ word_set q = word_set q) by set_ext.
    assert (Hu : word_set q ∪ word_set q = word_set q) by set_ext.
    rewrite Hi, Hu. lia.
Qed.

(** X14. The score is 0 exactly when the two strings share no normalised
    word, which includes the case that one of them has none. *)
Theorem relevance_score_zero (q c : string) :
  Qeq (calculate_relevance_score q c) 0 <-> word_set q ∩ word_set c = ∅.
Proof.
  destruct (decide (word_set q = ∅)) as [Hq|Hq].
  { rewrite calculate_relevance_score_empty by auto.
    split; [|reflexivity]. intros _. rewrite Hq. set_ext. }
  destruct (decide (word_set c = ∅)) as [Hc|Hc].
  { rewrite calculate_relevance_score_empty by auto.
    split; [|reflexivity]. intros _. rewrite Hc. set_ext. }
  rewrite calculate_relevance_score_nonempty by auto.
  unfold Qeq. simpl. rewrite Z.mul_1_r. split.
  - intros Hsize. apply leibniz_equiv, size_empty_iff. lia.
  - intros ->. now rewrite size_empty.
Qed.

(** X15. The score ignores letter case and punctuation: lowering a
    string or removing its non-word, non-space characters beforehand
    changes no score. *)
Theorem relevance_score_normalised (q c : string) :
  calculate_relevance_score (lower q) c = calculate_relevance_score q c
  /\ calculate_relevance_score q (lower c) = calculate_relevance_score q c
  /\ calculate_relevance_score (strip_punctuation q) c
     = calculate_relevance_score q c
  /\ calculate_relevance_score q (strip_punctuation c)
     = calculate_relevance_score q c.
Proof.
  unfold calculate_relevance_score.
  now rewrite !word_set_lower, !word_set_strip.
Qed.

(** X16. The score ignores repetition and order of words: the words of
    two strings joined by a space are the union of their words, so that
    repeating the query, or swapping two parts of it, changes no score. *)
Theorem relevance_score_word_order (a b c : string) :
  word_set (a +:+ " " +:+ b) = word_set a ∪ word_set b
  /\ calculate_relevance_score (a +:+ " " +:+ a) c = calculate_relevance_score a c
  /\ calculate_relevance_score (a +:+ " " +:+ b) c
     = calculate_relevance_score (b +:+ " " +:+ a) c.
Proof.
  split_and!.
  - apply word_set_append_space.
  - unfold calculate_relevance_score. rewrite word_set_append_space.
    assert (Hu : word_set a ∪ word_set a = word_set a) by set_ext.
    now rewrite Hu.
  - unfold calculate_relevance_score. rewrite !word_set_append_space.
    assert (Hu : word_set a ∪ word_set b = word_set b ∪ word_set a) by set_ext.
    now rewrite Hu.
Qed.

Lemma relevance_score_one_witness :
  (word_set "Refund policy" = word_set "policy, refund!"
   /\ word_set "Refund policy" <> ∅)
  /\ Qeq (calculate_relevance_score "Refund policy" "policy, refund!") 1.
Proof.
  assert (H : word_set "Refund policy" = word_set "policy, refund!"
              /\ word_set "Refund policy" <> ∅)
    by (split; [vm_compute; reflexivity | vm_compute; discriminate]).
  split; [exact H|].
  exact (proj2 (relevance_score_one "Refund policy" "policy, refund!") H).
Defined.

Lemma relevance_score_zero_witness :
  word_set "apple pie" ∩ word_set "refund policy" = ∅
  /\ Qeq (calculate_relevance_score "apple pie" "refund policy") 0.
Proof.
  assert (H : word_set "apple pie" ∩ word_set "refund policy" = ∅)
    by (vm_compute; reflexivity).
  split; [exact H|].
  exact (proj2 (relevance_score_zero "apple pie" "refund policy") H).
Defined.

(** * Further properties of the retriever *)

Lemma score_chunks_raises query doc chunks acc c :
  In c chunks ->
  sc_text c = None \/ sc_chunk_id c = None \/ doc_filename doc = None ->
  exists e, score_chunks query doc chunks acc = Raise e.
Proof.
  intros Hin Hbad. revert acc.
  induction chunks as [|c' chunks IH]; intros acc; [destruct Hin|].
  simpl. destruct (score_chunk query doc c') as [s|e] eqn:E; simpl; [|eauto].
  destruct Hin as [->|Hin]; [|now apply IH].
  exfalso. unfold score_chunk in E.
  destruct (sc_text c); simpl in E; [|discriminate].
  destruct (sc_chunk_id c); simpl in E; [|discriminate].
  destruct (doc_filename doc); simpl in E; [|discriminate].
  destruct Hbad as [?|[?|?]]; discriminate.
Qed.

Lemma score_documents_raises query documents acc doc c :
  In doc documents -> In c (chunks_of doc) ->
  sc_text c = None \/ sc_chunk_id c = None \/ doc_filename doc = None ->
  exists e, score_documents query documents acc = Raise e.
Proof.
  intros Hdoc Hc Hbad. revert acc.
  induction documents as [|d documents IH]; intros acc; [destruct Hdoc|].
  simpl. destruct (score_chunks query d (chunks_of d) acc) as [r|e] eqn:E;
    simpl; [|eauto].
  destruct Hdoc as [->|Hdoc]; [|now apply IH].
  destruct (score_chunks_raises query doc (chunks_of doc) acc c Hc Hbad) as (e & He).
  congruence.
Qed.

Lemma descending_app_le {A : Type} (key : A -> Q) (l1 l2 : list A) x y :
  descending key (l1 ++ l2) -> In x l1 -> In y l2 -> (key y <= key x)%Q.
Proof.
  unfold descending. induction l1 as [|z l1 IH]; intros Hs Hx Hy; [destruct Hx|].
  simpl in Hs. apply StronglySorted_inv in Hs as [Hs Hz].
  destruct Hx as [->|Hx]; [|now apply IH].
  eapply List.Forall_forall in Hz; [exact Hz|]. apply in_or_app. now right.
Qed.

Section RetrievalFacts.

Variable store : DocumentStore.
Variables conversation_id query oid : string.
Variable documents : list document.

Hypothesis Hdb : get_database store = Return tt.
Hypothesis Hid : ObjectId store conversation_id = Return oid.
Hypothesis Hfind : find_documents store oid = Return documents.

Lemma retrieve_fetched top_k scored :
  score_documents query documents [] = Return scored ->
  retrieve_relevant_chunks store conversation_id query top_k
  = map s_text (Py.slice (sort_reverse s_score scored) None (Some top_k)).
Proof.
  intros Hscore. unfold retrieve_relevant_chunks.
  rewrite (retrieve_body_fetched _ _ _ _ _ _ Hdb Hid Hfind), Hscore.
  reflexivity.
Qed.

Lemma scored_length scored :
  score_documents query documents [] = Return scored ->
  length scored = length (pool documents).
Proof.
  intros Hscore.
  destruct (score_documents_scores _ _ _ _ Hscore) as (new & -> & Hnew).
  simpl. symmetry. exact (Forall2_length _ _ _ Hnew).
Qed.

Lemma retrieve_count top_k scored :
  score_documents query documents [] = Return scored ->
  0 <= top_k ->
  len (retrieve_relevant_chunks store conversation_id query top_k)
  = Z.min top_k (len (pool documents)).
Proof.
  intros Hscore Hk. rewrite (retrieve_fetched _ _ Hscore).
  rewrite slice_top_k by exact Hk. unfold len.
  rewrite length_map, length_take.
  rewrite (Permutation_length (sort_reverse_perm s_score scored)).
  rewrite (scored_length _ Hscore). lia.
Qed.

Lemma retrieve_malformed top_k doc c :
  In doc documents -> In c (chunks_of doc) ->
  sc_text c = None \/ sc_chunk_id c = None \/ doc_filename doc = None ->
  retrieve_relevant_chunks store conversation_id query top_k = [].
Proof.
  intros Hdoc Hc Hbad. unfold retrieve_relevant_chunks.
  rewrite (retrieve_body_fetched _ _ _ _ _ _ Hdb Hid Hfind).
  destruct (score_documents_raises query documents [] doc c Hdoc Hc Hbad)
    as (e & ->).
  reflexivity.
Qed.

Lemma retrieve_best top_k scored :
  score_documents query documents [] = Return scored ->
  0 <= top_k ->
  let sorted := sort_reverse s_score scored in
  retrieve_relevant_chunks store conversation_id query top_k
  = map s_text (take (Z.to_nat top_k) sorted)
  /\ Permutation (take (Z.to_nat top_k) sorted ++ drop (Z.to_nat top_k) sorted)
       scored
  /\ forall kept dropped,
       In kept (take (Z.to_nat top_k) sorted) ->
       In dropped (drop (Z.to_nat top_k) sorted) ->
       (s_score dropped <= s_score kept)%Q.
Proof.
  intros Hscore Hk sorted. split_and!.
  - rewrite (retrieve_fetched _ _ Hscore). now rewrite slice_top_k.
  - rewrite take_drop. apply sort_reverse_perm.
  - intros kept dropped Hkept Hdropped.
    eapply (descending_app_le s_score); [|exact Hkept | exact Hdropped].
    rewrite take_drop. apply sort_reverse_descending.
Qed.

Lemma retrieve_negative top_k scored :
  score_documents query documents [] = Return scored ->
  top_k < 0 ->
  retrieve_relevant_chunks store conversation_id query top_k
  = map s_text (take (length (pool documents) - Z.to_nat (- top_k))
                  (sort_reverse s_score scored)).
Proof.
  intros Hscore Hk. rewrite (retrieve_fetched _ _ Hscore).
  rewrite slice_to_take. f_equal. f_equal.
  unfold Py.clamp, len.
  rewrite (Permutation_length (sort_reverse_perm s_score scored)).
  rewrite (scored_length _ Hscore).
  destruct (Z.ltb_spec top_k 0); lia.
Qed.

End RetrievalFacts.

(** X17. When the store answers and every chunk is well formed, retrieval
    with [top_k >= 0] returns exactly [min(top_k, size of the pool)]
    texts: fewer than [top_k] only if fewer chunks exist. *)
Theorem retrieve_result_count (store : DocumentStore)
    (conversation_id query oid : string) (documents : list document)
    (top_k : Z) (scored : list scored_chunk) :
  get_database store = Return tt ->
  ObjectId store conversation_id = Return oid ->
  find_documents store oid = Return documents ->
  score_documents query documents [] = Return scored ->
  0 <= top_k ->
  len (retrieve_relevant_chunks store conversation_id query top_k)
  = Z.min top_k (len (pool documents)).
Proof. intros. eapply retrieve_count; eauto. Qed.

Lemma demo_scored :
  exists scored, score_documents "refund policy" demo_documents [] = Return scored.
Proof. eexists. vm_compute. reflexivity. Defined.

Lemma retrieve_result_count_witness :
  len (retrieve_relevant_chunks demo_store demo_id "refund policy" 3)
  = Z.min 3 (len (pool demo_documents))
  /\ len (retrieve_relevant_chunks demo_store demo_id "refund policy" 9)
     = Z.min 9 (len (pool demo_documents)).
Proof.
  destruct demo_scored as (scored & Hscored).
  split.
  - exact (retrieve_result_count demo_store demo_id "refund policy" demo_id
             demo_documents 3 scored eq_refl eq_refl eq_refl Hscored
             ltac:(lia)).
  - exact (retrieve_result_count demo_store demo_id "refund policy" demo_id
             demo_documents 9 scored eq_refl eq_refl eq_refl Hscored
             ltac:(lia)).
Defined.

(** X18. One malformed entry disables retrieval for the conversation: if
    any chunk of any document lacks its text or its identifier, or the
    document of a chunk lacks its file name, the [KeyError] is swallowed
    and the result is empty, whatever the other chunks score. *)
Theorem retrieve_malformed_chunk (store : DocumentStore)
    (conversation_id query oid : string) (documents : list document)
    (top_k : Z) (doc : document) (c : stored_chunk) :
  get_database store = Return tt ->
  ObjectId store conversation_id = Return oid ->
  find_documents store oid = Return documents ->
  In doc documents -> In c (chunks_of doc) ->
  sc_text c = None \/ sc_chunk_id c = None \/ doc_filename doc = None ->
  retrieve_relevant_chunks store conversation_id query top_k = [].
Proof. intros. eapply retrieve_malformed; eauto. Qed.

Lemma retrieve_malformed_chunk_witness :
  retrieve_relevant_chunks broken_store demo_id "refund policy" 3 = [].
Proof.
  refine (retrieve_malformed_chunk broken_store demo_id "refund policy" demo_id
            broken_documents 3
            {| doc_filename := Some "scan.pdf";
               doc_chunks := Some [ {| sc_text := None;
                                       sc_chunk_id := Some "chunk_0" |} ] |}
            {| sc_text := None; sc_chunk_id := Some "chunk_0" |}
            eq_refl eq_refl eq_refl _ _ _).
  - right. left. reflexivity.
  - left. reflexivity.
  - left. reflexivity.
Defined.

(** X19. Retrieval returns the best: with [top_k >= 0] the returned texts
    are those of the first [top_k] entries of the ranking, the entries
    kept and dropped together are the scored pool, and no dropped entry
    has a higher score than a kept one. *)
Theorem retrieve_keeps_best (store : DocumentStore)
    (conversation_id query oid : string) (documents : list document)
    (top_k : Z) (scored : list scored_chunk) :
  get_database store = Return tt ->
  ObjectId store conversation_id = Return oid ->
  find_documents store oid = Return documents ->
  score_documents query documents [] = Return scored ->
  0 <= top_k ->
  let sorted := sort_reverse s_score scored in
  retrieve_relevant_chunks store conversation_id query top_k
  = map s_text (take (Z.to_nat top_k) sorted)
  /\ Permutation (take (Z.to_nat top_k) sorted ++ drop (Z.to_nat top_k) sorted)
       scored
  /\ forall kept dropped,
       In kept (take (Z.to_nat top_k) sorted) ->
       In dropped (drop (Z.to_nat top_k) sorted) ->
       (s_score dropped <= s_score kept)%Q.
Proof. intros. eapply retrieve_best; eauto. Qed.

Lemma retrieve_keeps_best_witness :
  exists scored,
    score_documents "refund policy" demo_documents [] = Return scored
    /\ retrieve_relevant_chunks demo_store demo_id "refund policy" 2
       = map s_text (take 2 (sort_reverse s_score scored)).
Proof.
  destruct demo_scored as (scored & Hscored).
  exists scored. split; [exact Hscored|].
  exact (proj1 (retrieve_keeps_best demo_store demo_id "refund policy" demo_id
                  demo_documents 2 scored eq_refl eq_refl eq_refl Hscored
                  ltac:(lia))).
Defined.

(** X20. A negative [top_k] is a slice bound counted from the end: with
    every chunk well formed, retrieval returns all of the ranking but its
    last [-top_k] entries. *)
Theorem retrieve_negative_top_k (store : DocumentStore)
    (conversation_id query oid : string) (documents : list document)
    (top_k : Z) (scored : list scored_chunk) :
  get_database store = Return tt ->
  ObjectId store conversation_id = Return oid ->
  find_documents store oid = Return documents ->
  score_documents query documents [] = Return scored ->
  top_k < 0 ->
  retrieve_relevant_chunks store conversation_id query top_k
  = map s_text (take (length (pool documents) - Z.to_nat (- top_k))
                  (sort_reverse s_score scored)).
Proof. intros. eapply retrieve_negative; eauto. Qed.

Lemma retrieve_negative_top_k_witness :
  exists scored,
    score_documents "refund policy" demo_documents [] = Return scored
    /\ retrieve_relevant_chunks demo_store demo_id "refund policy" (-2)
       = map s_text (take (length (pool demo_documents) - Z.to_nat (- -2))
                       (sort_reverse s_score scored)).
Proof.
  destruct demo_scored as (scored & Hscored).
  exists scored. split; [exact Hscored|].
  exact (retrieve_negative_top_k demo_store demo_id "refund policy" demo_id
           demo_documents (-2) scored eq_refl eq_refl eq_refl Hscored
           ltac:(lia)).
Defined.

(** * Further properties of generation and storage *)

Lemma generate_response_failed encode self messages temperature max_out e :
  create self (model self)
    (_manage_context encode (max_history self) (max_tokens self) messages)
    temperature max_out = Raise e ->
  generate_response encode self messages temperature max_out
  = {| r_content := fallback_content; r_tokens_used := 0;
       r_model := model self; r_finish_reason := None;
       r_error := Some (exn_text e); r_chunks_used := None |}.
Proof. intros H. unfold generate_response. now rewrite H. Qed.

Lemma retrieve_three store conversation_id query :
  len (retrieve_relevant_chunks store conversation_id query 3) <= 3.
Proof.
  destruct (retrieve_cases store conversation_id query 3)
    as [-> | (oid & documents & scored & _ & _ & _ & _ & ->)]; [lia | |].
  - unfold len. simpl. lia.
  - unfold len. rewrite length_map, length_take. lia.
Qed.

Lemma create_message_returns encode store insert_one conversation_id role
    content sequence_number tokens_used md m :
  _create_message encode store insert_one conversation_id role content
    sequence_number tokens_used md = Return m ->
  sm_tokens_used m
  = (if tokens_used =? 0 then count_tokens encode content else tokens_used)
  /\ sm_content m = content
  /\ sm_role m = role_value role
  /\ sm_sequence_number m = sequence_number
  /\ sm_conversation_id m = conversation_id
  /\ sm_metadata m = md
  /\ is_Some (sm_id m).
Proof.
  unfold _create_message.
  destruct (get_database store); simpl; [|discriminate].
  destruct (ObjectId store conversation_id); simpl; [|discriminate].
  destruct (insert_one _); simpl; [|discriminate].
  intros [= <-]. simpl. split_and!; eauto.
Qed.

(** X21. A failed completion is stored as the fixed apology with the
    token count of the apology, in every mode: [generate_response]
    reports 0 tokens for the fallback, and [_create_message] replaces a
    count of 0 by the tokens of the content. The stored metadata has no
    finish reason. *)
Theorem failed_completion_stored (encode : string -> list Z)
    (store : DocumentStore) (insert_one : stored_message -> outcome string)
    (self : LLMService) (conversation_id user_message : string)
    (history : list message) (sequence_number : Z) (mode : ConversationMode)
    (m : stored_message) :
  (forall model_name messages temperature max_out,
     exists e, create self model_name messages temperature max_out = Raise e) ->
  generate_and_store encode store insert_one self conversation_id user_message
    history sequence_number mode = Return m ->
  sm_content m = fallback_content
  /\ sm_tokens_used m = count_tokens encode fallback_content
  /\ sm_role m = "assistant"
  /\ exists k, sm_metadata m
               = Some {| md_model := model self; md_finish_reason := None;
                         md_chunks_used := k |}.
Proof.
  intros Hfail Hrun. unfold generate_and_store in Hrun.
  apply create_message_returns in Hrun
    as (Htok & Hcontent & Hrole & _ & _ & Hmd & _).
  assert (Hresp : forall messages,
            generate_response encode self messages default_temperature 1024
            = {| r_content := fallback_content; r_tokens_used := 0;
                 r_model := model self; r_finish_reason := None;
                 r_error := r_error (generate_response encode self messages
                                       default_temperature 1024);
                 r_chunks_used := None |}).
  { intros messages.
    destruct (Hfail (model self)
                (_manage_context encode (max_history self) (max_tokens self)
                   messages) default_temperature 1024) as (e & He).
    now rewrite (generate_response_failed _ _ _ _ _ _ He). }
  unfold _generate_and_store_response, generate_for_mode in *. simpl in *.
  destruct mode.
  - rewrite Hresp in *. simpl in *. split_and!; eauto.
  - destruct (retrieve_relevant_chunks store conversation_id user_message 3).
    + rewrite Hresp in *. simpl in *. split_and!; eauto.
    + unfold generate_with_rag_context in *. rewrite Hresp in *. simpl in *.
      split_and!; eauto.
Qed.

Lemma failed_completion_stored_witness :
  exists m,
    generate_and_store char_encode demo_store demo_insert failing_llm demo_id
      "refund policy" [] 2 GROUNDED_RAG = Return m
    /\ sm_content m = fallback_content
    /\ sm_tokens_used m = count_tokens char_encode fallback_content.
Proof.
  destruct (generate_and_store char_encode demo_store demo_insert failing_llm
              demo_id "refund policy" [] 2 GROUNDED_RAG) as [m|e] eqn:E;
    [|vm_compute in E; discriminate E].
  exists m. split; [reflexivity|].
  assert (Hfail : forall model_name messages temperature max_out,
            exists e, create failing_llm model_name messages temperature max_out
                      = Raise e)
    by (intros; eexists; reflexivity).
  destruct (failed_completion_stored char_encode demo_store demo_insert
              failing_llm demo_id "refund policy" [] 2 GROUNDED_RAG m Hfail E)
    as (H1 & H2 & _).
  split; assumption.
Defined.


(** X23. The stored count of used chunks is between 0 and 3 in every
    mode, for every store and every completion service. *)
Theorem chunks_used_range (encode : string -> list Z) (self : LLMService)
    (store : DocumentStore) (conversation_id user_message : string)
    (history : list message) (sequence_number : Z) (mode : ConversationMode) :
  0 <= md_chunks_used
         (am_metadata
            (_generate_and_store_response encode self store conversation_id
               user_message history sequence_number mode))
    <= 3.
Proof.
  assert (Hplain : forall messages t k,
            r_chunks_used (generate_response encode self messages t k) = None).
  { intros. unfold generate_response, try_except.
    destruct (create self _ _ _ _); reflexivity. }
  unfold _generate_and_store_response, generate_for_mode. simpl.
  destruct mode.
  - rewrite Hplain. lia.
  - pose proof (retrieve_three store conversation_id user_message) as H3.
    destruct (retrieve_relevant_chunks store conversation_id user_message 3)
      as [|t rest] eqn:E.
    + rewrite Hplain. lia.
    + unfold generate_with_rag_context. simpl. unfold len in *. simpl in *. lia.
Qed.

(** X24. The managed context of a grounded prompt always starts with the
    instruction message. The context message with the excerpts follows
    it, unless the system messages alone reach the token budget: then the
    instruction message is all that is sent, without excerpts and
    without the question of the user. *)
Theorem grounded_prompt_managed (encode : string -> list Z)
    (max_history max_tokens : Z) (chunks : list string)
    (history : list message) (user_message : string) :
  let messages :=
    (rag_system_message :: context_message chunks :: history
     ++ [user_query user_message])%list in
  let out := _manage_context encode max_history max_tokens messages in
  (out = [rag_system_message]
   \/ exists rest, out = rag_system_message :: context_message chunks :: rest)
  /\ (max_tokens
        < count_message_tokens encode (sliding_window max_history messages) ->
      max_tokens - count_message_tokens encode (system_of messages) <= 0 ->
      out = [rag_system_message]).
Proof.
  intros messages out.
  assert (Hsys : exists more,
            system_of messages
            = rag_system_message :: context_message chunks :: more).
  { unfold messages, system_of. simpl.
    unfold rag_system_message, context_message.
    rewrite !is_system_mk_message. eauto. }
  destruct Hsys as (more & Hsys).
  set (w := sliding_window max_history messages).
  pose proof (system_of_sliding_window max_history messages) as Hw. fold w in Hw.
  assert (Hstart : exists rest,
            w = rag_system_message :: context_message chunks :: rest).
  { destruct (sliding_window_shape max_history messages) as [Heq|(n & Heq)];
      fold w in Heq; rewrite Heq.
    - unfold messages. eauto.
    - rewrite Hsys. simpl. eauto. }
  subst out. unfold _manage_context, token_budget. fold w.
  destruct (Z.gtb_spec (count_message_tokens encode w) max_tokens) as [Hover|Hfit].
  2: { split; [right; exact Hstart | lia]. }
  assert (Hne : w <> []) by (destruct Hstart as (rest & ->); discriminate).
  destruct (truncate_messages_cases encode w max_tokens Hne)
    as [[Hrem Heq]|[Hrem (added & Heq & _)]]; rewrite Heq, Hw, Hsys in *.
  - split; [left; reflexivity | reflexivity].
  - split; [right; simpl; eauto | lia].
Qed.

Lemma grounded_prompt_managed_witness :
  let messages :=
    (rag_system_message :: context_message ["refund policy"]
     :: [] ++ [user_query "refund?"])%list in
  60 < count_message_tokens char_encode (sliding_window 12 messages)
  /\ 60 - count_message_tokens char_encode (system_of messages) <= 0
  /\ _manage_context char_encode 12 60 messages = [rag_system_message].
Proof.
  intros messages.
  assert (H1 : 60 < count_message_tokens char_encode (sliding_window 12 messages))
    by (vm_compute; reflexivity).
  assert (H2 : 60 - count_message_tokens char_encode (system_of messages) <= 0)
    by (vm_compute; discriminate).
  split; [exact H1 | split; [exact H2|]].
  exact (proj2 (grounded_prompt_managed char_encode 12 60 ["refund policy"] []
                  "refund?") H1 H2).
Defined.


(** * Titles and pages *)

Lemma string_length_append (s t : string) :
  String.length (s +:+ t) = (String.length s + String.length t)%nat.
Proof.
  induction s as [|a s IH]; [reflexivity|].
  rewrite append_cons. simpl. now rewrite IH.
Qed.

Lemma substring_prefix_length (n : nat) (s : string) :
  String.length (substring 0 n s) = Nat.min n (String.length s).
Proof.
  revert s. induction n as [|n IH]; intros [|a s]; simpl; auto.
Qed.

Lemma substring_prefix_append (n : nat) (s t : string) :
  String.length s = n -> substring 0 n (s +:+ t) = s.
Proof.
  revert s. induction n as [|n IH]; intros [|a s] Hlen; try discriminate.
  - destruct t; reflexivity.
  - rewrite append_cons. simpl. f_equal. apply IH. now injection Hlen.
Qed.

(** X25. The title of a conversation is its first message when that has
    at most 50 characters; otherwise it is the first 50 characters
    followed by three dots, 53 characters in all. A title never has more
    than 53 characters. *)
Theorem conversation_title_length (first_message : string) :
  ((String.length first_message <= 50)%nat ->
     conversation_title first_message = first_message)
  /\ ((50 < String.length first_message)%nat ->
        conversation_title first_message
        = substring 0 50 first_message +:+ "..."
        /\ String.length (conversation_title first_message) = 53%nat
        /\ substring 0 50 (conversation_title first_message)
           = substring 0 50 first_message)
  /\ (String.length (conversation_title first_message) <= 53)%nat.
Proof.
  unfold conversation_title.
  destruct (Z.ltb_spec 50 (Z.of_nat (String.length first_message))) as [Hlong|Hshort].
  - assert (Hlen : String.length (substring 0 50 first_message) = 50%nat)
      by (rewrite substring_prefix_length; lia).
    split_and!.
    + lia.
    + intros _. split_and!.
      * reflexivity.
      * rewrite string_length_append, Hlen. reflexivity.
      * now apply substring_prefix_append.
    + rewrite string_length_append, Hlen. simpl. lia.
  - split_and!; [reflexivity | lia | lia].
Qed.

Lemma conversation_title_length_witness :
  (String.length "What is the refund policy?" <= 50)%nat
  /\ conversation_title "What is the refund policy?" = "What is the refund policy?"
  /\ (50 < String.length
             "Please summarise the attached contract and list every clause on refunds")%nat
  /\ String.length
       (conversation_title
          "Please summarise the attached contract and list every clause on refunds")
     = 53%nat.
Proof.
  assert (H1 : (String.length "What is the refund policy?" <= 50)%nat)
    by (vm_compute; lia).
  assert (H2 : (50 < String.length
                  "Please summarise the attached contract and list every clause on refunds")%nat)
    by (vm_compute; lia).
  split_and!.
  - exact H1.
  - exact (proj1 (conversation_title_length "What is the refund policy?") H1).
  - exact H2.
  - exact (proj1 (proj2 (proj1 (proj2 (conversation_title_length
             "Please summarise the attached contract and list every clause on refunds"))
             H2))).
Defined.

(** X26. Pages cover the conversations: for a positive [limit] and a
    positive [total] (below 2^53, where the float quotient of the code
    has the exact ceiling) the page count [p] is the least number of
    pages that holds [total] items, so that the last page is not empty
    and no item lies beyond it; with no conversation the count is 1, and
    [limit = 0] with a positive total raises. *)
Theorem page_count_covers (total limit : Z) :
  0 < limit ->
  (0 < total < 2 ^ 53 ->
     exists p, page_count total limit = Some p
               /\ 1 <= p
               /\ page_skip p limit < total
               /\ total <= page_skip (p + 1) limit)
  /\ (total <= 0 -> page_count total limit = Some 1)
  /\ (0 < total -> page_count total 0 = None).
Proof.
  intros Hlimit. unfold page_count, page_skip. split_and!.
  - intros [Htotal _].
    destruct (Z.gtb_spec total 0); [|lia].
    destruct (Z.eqb_spec limit 0); [lia|].
    eexists. split; [reflexivity|].
    pose proof (Z.div_mod (- total) limit ltac:(lia)) as Hdm.
    pose proof (Z.mod_pos_bound (- total) limit Hlimit) as Hmod.
    nia.
  - intros Htotal. destruct (Z.gtb_spec total 0); [lia | reflexivity].
  - intros Htotal. destruct (Z.gtb_spec total 0); [reflexivity | lia].
Qed.

Lemma page_count_covers_witness :
  0 < 20 /\ 0 < 41 < 2 ^ 53
  /\ exists p, page_count 41 20 = Some p
               /\ 1 <= p /\ page_skip p 20 < 41 /\ 41 <= page_skip (p + 1) 20.
Proof.
  assert (H1 : 0 < 20) by lia.
  assert (H2 : 0 < 41 < 2 ^ 53) by lia.
  split; [exact H1 | split; [exact H2|]].
  exact (proj1 (page_count_covers 41 20 H1) H2).
Defined.

(** * Retrieval and the normal form of the query *)

Section QueryNormalForm.

Variables q q' : string.
Hypothesis Hsame : word_set q = word_set q'.

Lemma score_same_words t :
  calculate_relevance_score q t = calculate_relevance_score q' t.
Proof. unfold calculate_relevance_score. now rewrite Hsame. Qed.

Lemma score_chunk_same_words doc c : score_chunk q doc c = score_chunk q' doc c.
Proof.
  unfold score_chunk. destruct (sc_text c); simpl; [|reflexivity].
  now rewrite score_same_words.
Qed.

Lemma score_chunks_same_words doc chunks acc :
  score_chunks q doc chunks acc = score_chunks q' doc chunks acc.
Proof.
  revert acc. induction chunks as [|c chunks IH]; intros acc; simpl; [reflexivity|].
  rewrite score_chunk_same_words.
  destruct (score_chunk q' doc c); simpl; [apply IH | reflexivity].
Qed.

Lemma score_documents_same_words documents acc :
  score_documents q documents acc = score_documents q' documents acc.
Proof.
  revert acc. induction documents as [|d documents IH]; intros acc; simpl;
    [reflexivity|].
  rewrite score_chunks_same_words.
  destruct (score_chunks q' d (chunks_of d) acc); simpl; [apply IH | reflexivity].
Qed.

Lemma retrieve_same_words store conversation_id top_k :
  retrieve_relevant_chunks store conversation_id q top_k
  = retrieve_relevant_chunks store conversation_id q' top_k.
Proof.
  unfold retrieve_relevant_chunks.
  destruct (get_database store) as [[]|e] eqn:Hdb;
    [|unfold retrieve_body; now rewrite Hdb].
  destruct (ObjectId store conversation_id) as [oid|e] eqn:Hid;
    [|unfold retrieve_body; rewrite Hdb; simpl; now rewrite Hid].
  destruct (find_documents store oid) as [documents|e] eqn:Hfind;
    [|unfold retrieve_body; rewrite Hdb; simpl; rewrite Hid; simpl;
      now rewrite Hfind].
  rewrite !(retrieve_body_fetched _ _ _ _ _ _ Hdb Hid Hfind).
  now rewrite score_documents_same_words.
Qed.

End QueryNormalForm.

(** X27. Retrieval depends on the query only through its set of
    normalised words: two queries with the same word set retrieve the
    same texts, so that letter case, punctuation, and the order and
    repetition of the words of a query do not matter. *)
Theorem retrieve_query_words (store : DocumentStore)
    (conversation_id q q' : string) (top_k : Z) :
  (word_set q = word_set q' ->
   retrieve_relevant_chunks store conversation_id q top_k
   = retrieve_relevant_chunks store conversation_id q' top_k)
  /\ retrieve_relevant_chunks store conversation_id (lower q) top_k
     = retrieve_relevant_chunks store conversation_id q top_k
  /\ retrieve_relevant_chunks store conversation_id (strip_punctuation q) top_k
     = retrieve_relevant_chunks store conversation_id q top_k
  /\ retrieve_relevant_chunks store conversation_id (q +:+ " " +:+ q') top_k
     = retrieve_relevant_chunks store conversation_id (q' +:+ " " +:+ q) top_k.
Proof.
  split_and!.
  - intros H. now apply retrieve_same_words.
  - apply retrieve_same_words, word_set_lower.
  - apply retrieve_same_words, word_set_strip.
  - apply retrieve_same_words. rewrite !word_set_append_space. set_ext.
Qed.

Lemma retrieve_query_words_witness :
  word_set "Refund policy?" = word_set "policy refund"
  /\ retrieve_relevant_chunks demo_store demo_id "Refund policy?" 3
     = retrieve_relevant_chunks demo_store demo_id "policy refund" 3.
Proof.
  assert (H : word_set "Refund policy?" = word_set "policy refund")
    by (vm_compute; reflexivity).
  split; [exact H|].
  exact (proj1 (retrieve_query_words demo_store demo_id "Refund policy?"
                  "policy refund" 3) H).
Defined.

Lemma manage_context_order_witness :
  let messages := [mk_message "system" "a"; mk_message "user" "b";
                   mk_message "assistant" "c"; mk_message "user" "d"] in
  let out := _manage_context char_encode 3 30 messages in
  In (mk_message "user" "d") out /\ In (mk_message "user" "d") messages.
Proof.
  intros messages out.
  assert (H : In (mk_message "user" "d") out)
    by (apply list_elem_of_In; compute_done).
  split; [exact H|].
  exact (proj1 (proj2 (manage_context_order char_encode 3 30 messages)) _ H).
Defined.
